(** * AI Powered Data Tools: the slide-structure parser, the chat turn and
    the text extraction of [full_file.py]

    The Streamlit script has three handlers ([pdf_chat], [csv_chat],
    [ppt_from_pdf]).  This development embeds the parts of them that carry
    logic of their own:

    - the regular-expression scan of the model's answer into slide records
      and the slides rendered from them ([ppt_from_pdf], lines 200-224);
    - one conversation turn ([pdf_chat], lines 75-86, and the same code in
      [csv_chat], lines 136-147);
    - the extraction of the text of the uploaded document ([ppt_from_pdf],
      lines 156-174).

    Python values are modelled as follows.  A [str] is the list of its code
    points.  A call that may raise returns a [result].  The remote model
    service, the two PDF libraries and the text assignment of python-pptx
    are oracles: their answers are arguments of the handlers. *)

From Stdlib Require Import String Ascii NArith DecimalString.
From Stdlib Require DecimalNat.
From stdpp Require Import base numbers list.

Open Scope N_scope.
Open Scope nat_scope.

(** ** Text *)

(** A character is a Unicode code point, a string the list of its
    characters. *)
Abbreviation char := N (only parsing).
Abbreviation str := (list N) (only parsing).

Definition chr (a : ascii) : char := N_of_ascii a.

(** An ASCII literal of the source. *)
Definition lit (s : string) : str := chr <$> list_ascii_of_string s.

Arguments chr : simpl never.
Arguments lit : simpl never.

Definition NEWLINE : char := 0x0a%N.
Definition QUOTE : char := 0x22%N.

(** [str.isspace] on one character, which is also the class [\s] of a
    [str] pattern. *)
Definition isspace (c : char) : bool :=
  ((0x09 <=? c) && (c <=? 0x0d) || (0x1c <=? c) && (c <=? 0x20)
   || (c =? 0x85) || (c =? 0xa0) || (c =? 0x1680)
   || (0x2000 <=? c) && (c <=? 0x200a)
   || (c =? 0x2028) || (c =? 0x2029) || (c =? 0x202f) || (c =? 0x205f)
   || (c =? 0x3000))%N.

(** The first code point of every run of ten decimal digits (category Nd,
    Unicode 14.0.0 as in CPython 3.11).  The mathematical digits
    U+1D7CE..U+1D7FF are five such runs. *)
Definition DIGIT_ZEROS : list N :=
  [ 0x30; 0x660; 0x6f0; 0x7c0; 0x966; 0x9e6; 0xa66; 0xae6; 0xb66; 0xbe6;
    0xc66; 0xce6; 0xd66; 0xde6; 0xe50; 0xed0; 0xf20; 0x1040; 0x1090;
    0x17e0; 0x1810; 0x1946; 0x19d0; 0x1a80; 0x1a90; 0x1b50; 0x1bb0;
    0x1c40; 0x1c50; 0xa620; 0xa8d0; 0xa900; 0xa9d0; 0xa9f0; 0xaa50;
    0xabf0; 0xff10; 0x104a0; 0x10d30; 0x11066; 0x110f0; 0x11136; 0x111d0;
    0x112f0; 0x11450; 0x114d0; 0x11650; 0x116c0; 0x11730; 0x118e0;
    0x11950; 0x11c50; 0x11d50; 0x11da0; 0x16a60; 0x16ac0; 0x16b50;
    0x1d7ce; 0x1d7d8; 0x1d7e2; 0x1d7ec; 0x1d7f6;
    0x1e140; 0x1e2f0; 0x1e950; 0x1fbf0 ]%N.

(** [str.isdecimal] on one character, which is also the class [\d]. *)
Definition isdecimal (c : char) : bool :=
  existsb (λ z, (z <=? c) && (c <? z + 10))%N DIGIT_ZEROS.

(** [s.lstrip()], [s.rstrip()] and [s.strip()] without argument. *)
Fixpoint lstrip (s : str) : str :=
  match s with
  | c :: s' => if isspace c then lstrip s' else s
  | [] => []
  end.

Definition rstrip (s : str) : str := reverse (lstrip (reverse s)).

Definition strip (s : str) : str := rstrip (lstrip s).

(** [str(n)] for a non-negative integer, as an f-string formats it. *)
Definition str_of_nat (n : nat) : str := lit (NilEmpty.string_of_uint (Nat.to_uint n)).

(** ** Exceptions *)

Inductive exn :=
| IndexError
| AttributeError (msg : str)
| UnboundLocalError (var : str)
| LibraryError (msg : str).

(** [str(e)]. *)
Definition exn_str (e : exn) : str :=
  match e with
  | IndexError => lit "list index out of range"
  | AttributeError msg => msg
  | UnboundLocalError var =>
      lit "cannot access local variable '" ++ var
        ++ lit "' where it is not associated with a value"
  | LibraryError msg => msg
  end.

Inductive result (A : Type) :=
| Ok (a : A)
| Raise (e : exn).
Arguments Ok {A} a.
Arguments Raise {A} e.

Definition bind {A B} (m : result A) (k : A → result B) : result B :=
  match m with
  | Ok a => k a
  | Raise e => Raise e
  end.

Notation "'let*' x := m 'in' k" := (bind m (λ x, k))
  (at level 10, x pattern, m at level 100, k at level 200).

(** [l[i]] for a non-negative index. *)
Definition getitem {A} (l : list A) (i : nat) : result A :=
  match l !! i with
  | Some a => Ok a
  | None => Raise IndexError
  end.

(** [for i, x in enumerate(l)] with a body that may raise, threading the
    loop's state. *)
Fixpoint for_enumerate {A St} (body : St → nat → A → result St) (i : nat) (l : list A) (st : St)
  : result St :=
  match l with
  | [] => Ok st
  | x :: l' => let* st' := body st i x in for_enumerate body (S i) l' st'
  end.

(** ** The regular expressions of module [re] that the source uses

    A pattern is the sequence of its items, as [sre] compiles it: a literal
    character, a repeated character class (greedy or lazy, with its minimal
    count), or the opening or closing mark of capture group 1.  The source's
    three patterns need nothing else: no alternation, and repetition only of
    one class. *)
Module re.

Inductive cset :=
| Any      (* [.]: every character but the newline *)
| Digit    (* [\d] *)
| Space.   (* [\s] *)

Definition cset_mem (cs : cset) (c : char) : bool :=
  match cs with
  | Any => negb (c =? NEWLINE)%N
  | Digit => isdecimal c
  | Space => isspace c
  end.

Inductive op :=
| Lit (c : char)
| Rep (greedy : bool) (min : nat) (cs : cset)
| GOpen
| GClose.

Definition pattern := list op.

(** The positions of the two marks of group 1, counted from the start of
    the match. *)
Definition marks := (option nat * option nat)%type.

(** [cs{min,}] followed by the continuation [k], by backtracking: the greedy
    form first tries one more character and stops when that fails, the lazy
    form first tries to stop. *)
Fixpoint rep {R} (greedy : bool) (cs : cset) (k : str → nat → option R)
    (min : nat) (s : str) (pos : nat) {struct s} : option R :=
  let stop := match min with 0 => k s pos | S _ => None end in
  let more :=
    match s with
    | c :: s' => if cset_mem cs c then rep greedy cs k (pred min) s' (S pos) else None
    | [] => None
    end in
  if greedy
  then match more with Some r => Some r | None => stop end
  else match stop with Some r => Some r | None => more end.

(** The match of pattern [p] on [s], [pos] characters after the start of
    the attempt.  With [must_advance] an empty match is refused (the scan
    sets it after an empty match, so that it does not find it twice). *)
Fixpoint run (p : pattern) (s : str) (pos : nat) (g : marks) (must_advance : bool)
  : option (nat * marks) :=
  match p with
  | [] => if must_advance && (pos =? 0) then None else Some (pos, g)
  | Lit c :: p' =>
      match s with
      | x :: s' => if (x =? c)%N then run p' s' (S pos) g must_advance else None
      | [] => None
      end
  | Rep greedy min cs :: p' =>
      rep greedy cs (λ s' pos', run p' s' pos' g must_advance) min s pos
  | GOpen :: p' => run p' s pos (Some pos, g.2) must_advance
  | GClose :: p' => run p' s pos (g.1, Some pos) must_advance
  end.

(** A match object: [m.group(0)], and the text of group 1 ([None] when
    the pattern has no group 1, where [m.group(1)] raises). *)
Record Match := { group0 : str; group1 : option str }.

(** The match that starts at the first character of [s], with the number of
    characters it takes. *)
Definition match_here (p : pattern) (s : str) (must_advance : bool) : option (nat * Match) :=
  match run p s 0 (None, None) must_advance with
  | Some (n, (Some b, Some e)) =>
      Some (n, {| group0 := take n s; group1 := Some (take (e - b) (drop b s)) |})
  | Some (n, _) => Some (n, {| group0 := take n s; group1 := None |})
  | None => None
  end.

(** The leftmost match: the text before it, the match and the text after
    it.  Only the attempt at the first position is made with
    [must_advance]. *)
Fixpoint search_from (p : pattern) (s : str) (must_advance : bool)
  : option (str * Match * str) :=
  match match_here p s must_advance with
  | Some (n, m) => Some ([], m, drop n s)
  | None =>
      match s with
      | [] => None
      | c :: s' =>
          match search_from p s' false with
          | Some (pre, m, rest) => Some (c :: pre, m, rest)
          | None => None
          end
      end
  end.

(** The successive matches from left to right, none overlapping another:
    each with the text between the previous match and it, and at the end the
    text after the last match.  It is the loop shared by [findall] and
    [split]; every turn takes a character or sets [must_advance], so
    [scan_fuel] turns are enough. *)
Fixpoint scan (fuel : nat) (p : pattern) (s : str) (must_advance : bool)
  : list (str * Match) * str :=
  match fuel with
  | 0 => ([], s)
  | S fuel' =>
      match search_from p s must_advance with
      | None => ([], s)
      | Some (pre, m, rest) =>
          let '(ms, tl) := scan fuel' p rest (bool_decide (group0 m = [])) in
          ((pre, m) :: ms, tl)
      end
  end.

Definition scan_fuel (s : str) : nat := 2 * length s + 2.

(** What a turn of the scan has left: twice the characters, and the empty
    match it may still report at the first of them. *)
Definition scan_measure (s : str) (must_advance : bool) : nat :=
  2 * length s + (if must_advance then 1 else 2).

Definition has_group (p : pattern) : bool :=
  existsb (λ o, match o with GOpen => true | _ => false end) p.

(** What [findall] and [split] report of a match: the text of group 1 when
    the pattern has one, else (for [findall]) the whole match. *)
Definition group_text (m : Match) : str := default [] (group1 m).

(** [re.search(p, s)] *)
Definition search (p : pattern) (s : str) : option Match :=
  match search_from p s false with
  | Some (_, m, _) => Some m
  | None => None
  end.

(** [re.findall(p, s)], for a pattern with at most one group. *)
Definition findall (p : pattern) (s : str) : list str :=
  (λ pm : str * Match, if has_group p then group_text pm.2 else group0 pm.2)
    <$> (scan (scan_fuel s) p s false).1.

(** [re.split(p, s)], for a pattern with at most one group. *)
Definition split (p : pattern) (s : str) : list str :=
  let '(ms, tl) := scan (scan_fuel s) p s false in
  concat ((λ pm : str * Match, if has_group p then [pm.1; group_text pm.2] else [pm.1]) <$> ms)
    ++ [tl].

End re.

(** ** Configuration (lines 22-27) *)

Definition MAX_SLIDES : nat := 10.
Definition PROCESSING_CHUNK_SIZE : N := 15000.
Definition PPT_FONT : str := lit "Calibri".

(** ** The slide-structure parser (lines 207-213) *)

(** [r'\*\*Slide \d+:.*?\*\*'] *)
Definition SLIDE_MARKER : re.pattern :=
  (re.Lit <$> lit "**Slide ")
    ++ [re.Rep true 1 re.Digit; re.Lit (chr ":"); re.Rep false 0 re.Any;
        re.Lit (chr "*"); re.Lit (chr "*")].

(** [r'\*\*Title:\*\*\s*] followed by the group of [.*] *)
Definition TITLE_LINE : re.pattern :=
  (re.Lit <$> lit "**Title:**")
    ++ [re.Rep true 0 re.Space; re.GOpen; re.Rep true 0 re.Any; re.GClose].

(** [r'\*\s+] followed by the group of [.*] *)
Definition BULLET_LINE : re.pattern :=
  [re.Lit (chr "*"); re.Rep true 1 re.Space; re.GOpen; re.Rep true 0 re.Any; re.GClose].

Record SlideRecord := { title : str; bullets : list str }.

(** [m.group(1)] *)
Definition group (m : re.Match) : result str :=
  match re.group1 m with
  | Some t => Ok t
  | None => Raise IndexError
  end.

(** Line 210: the body of the marker of index [i]. *)
Definition slide_content (slides : list str) (i : nat) : result str :=
  if bool_decide (i + 1 < length slides) then getitem slides (i + 1) else Ok [].

(** Line 212 *)
Definition slide_title (title_match : option re.Match) (i : nat) : result str :=
  match title_match with
  | Some m => let* g := group m in Ok (strip g)
  | None => Ok (lit "Slide " ++ str_of_nat (i + 2))
  end.

(** Lines 210-213: the record of the marker of index [i]. *)
Definition slide_record (slides : list str) (i : nat) : result SlideRecord :=
  let* content := slide_content slides i in
  let title_match := re.search TITLE_LINE content in
  let* title := slide_title title_match i in
  let bullets := re.findall BULLET_LINE content in
  Ok {| title := title; bullets := bullets |}.

(** Lines 207-213 without the rendering: the records in the order of the
    loop. *)
Definition parse_slides (slide_structure : str) : result (list SlideRecord) :=
  let slides := re.split SLIDE_MARKER slide_structure in
  let headers := re.findall SLIDE_MARKER slide_structure in
  for_enumerate
    (λ (acc : list SlideRecord) i (header : str),
       let* r := slide_record slides i in Ok (acc ++ [r]))
    0 headers [].

(** ** The presentation (lines 200-205 and 214-224) *)

(** A paragraph of a text frame with the run properties the handler sets
    ([None]: left as the layout gives it). *)
Record Paragraph := {
  para_text : str;
  font_size : option nat;                (* [Pt] *)
  font_rgb : option (N * N * N);
  font_name : option str;
  left_aligned : bool
}.

Record Slide := {
  layout : nat;                          (* index in [prs.slide_layouts] *)
  shapes_title : str;                    (* [slide.shapes.title.text] *)
  paragraphs : list Paragraph            (* of [slide.placeholders[1]] *)
}.

Definition Presentation := list Slide.

Definition plain_paragraph (t : str) : Paragraph :=
  {| para_text := t; font_size := None; font_rgb := None; font_name := None;
     left_aligned := false |}.

(** Lines 219-224 *)
Definition bullet_paragraph (bullet : str) : Paragraph :=
  {| para_text := bullet; font_size := Some 18; font_rgb := Some (0, 0, 0)%N;
     font_name := Some PPT_FONT; left_aligned := true |}.

(** Lines 203-205; [today] is [datetime.now().strftime('%d %B %Y')]. *)
Definition title_slide (ppt_title today : str) : Slide :=
  {| layout := 0; shapes_title := ppt_title;
     paragraphs := [plain_paragraph (lit "Generated on " ++ today)] |}.

(** Lines 214-224; [text_frame.clear()] leaves one empty paragraph, the
    bullets are added after it. *)
Definition content_slide (r : SlideRecord) : Slide :=
  {| layout := 1; shapes_title := title r;
     paragraphs := plain_paragraph [] :: (bullet_paragraph <$> bullets r) |}.

(** [for x in l] with a body that may raise. *)
Fixpoint for_each {A} (body : A → result ()) (l : list A) : result () :=
  match l with
  | [] => Ok ()
  | x :: l' => let* _ := body x in for_each body l'
  end.

(** Lines 200-224: the title slide, then one slide per marker.

    Lines 204, 205, 215 and 220 assign a text to a shape or to a paragraph
    of python-pptx, which writes it into the XML tree of the slide and
    raises for a text that the tree cannot hold.  The library is an oracle,
    as the others are: [set_text t] is what the assignment of [t] does.  An
    exception of it leaves the loop and the presentation is lost. *)
Definition build_presentation (set_text : str → result ()) (ppt_title today slide_structure : str)
  : result Presentation :=
  let* _ := set_text ppt_title in
  let* _ := set_text (lit "Generated on " ++ today) in
  let prs := [title_slide ppt_title today] in
  let slides := re.split SLIDE_MARKER slide_structure in
  let headers := re.findall SLIDE_MARKER slide_structure in
  for_enumerate
    (λ (prs : Presentation) i (header : str),
       let* r := slide_record slides i in
       let* _ := set_text (title r) in
       let* _ := for_each set_text (bullets r) in
       Ok (prs ++ [content_slide r]))
    0 headers prs.

(** ** What the page shows *)

Inductive Element :=
| ChatMarkdown (role : str) (body : str)   (* [st.markdown] inside [st.chat_message(role)] *)
| ErrorBanner (msg : str).                 (* [st.error] *)

(** ** One conversation turn (lines 75-86 and 136-147) *)

Record Message := { role : str; content : str }.

(** The answer of [send_message]; reading [response.text] may raise. *)
Record Response := { text : result str }.

(** A chat session answers the prompt of the turn or raises. *)
Definition ChatSession := str → result Response.

(** [st.session_state.pdf_chat] and [st.session_state.csv_chat]. *)
Record TabState := {
  messages : list Message;
  file_processed : bool;
  gemini_file : option str;
  chat_session : option ChatSession
}.

(** Lines 41-46 and 94-100 *)
Definition initial_tab : TabState :=
  {| messages := []; file_processed := false; gemini_file := None; chat_session := None |}.

(** [state["messages"].append(m)] *)
Definition append_message (st : TabState) (m : Message) : TabState :=
  {| messages := messages st ++ [m]; file_processed := file_processed st;
     gemini_file := gemini_file st; chat_session := chat_session st |}.

(** [state["chat_session"].send_message(prompt)] *)
Definition send_message (session : option ChatSession) (prompt : str) : result Response :=
  match session with
  | Some chat => chat prompt
  | None => Raise (AttributeError (lit "'NoneType' object has no attribute 'send_message'"))
  end.

Definition USER : str := lit "user".
Definition ASSISTANT : str := lit "assistant".

(** Lines 75-86: [prompt] is what [st.chat_input] returns.  The local
    variable [response] is bound only when [send_message] returns. *)
Definition chat_turn (prompt : option str) (st : TabState) (ui : list Element)
  : result () * TabState * list Element :=
  match prompt with
  | None | Some [] => (Ok (), st, ui)
  | Some p =>
      let st := append_message st {| role := USER; content := p |} in
      let ui := ui ++ [ChatMarkdown USER p] in
      let sent := send_message (chat_session st) p in
      let response := match sent with Ok r => Some r | Raise _ => None end in
      let ui :=
        match (let* r := sent in text r) with
        | Ok t => ui ++ [ChatMarkdown ASSISTANT t]
        | Raise e => ui ++ [ChatMarkdown ASSISTANT (lit "Error: " ++ exn_str e)]
        end in
      match response with
      | None => (Raise (UnboundLocalError (lit "response")), st, ui)
      | Some r =>
          match text r with
          | Ok t => (Ok (), append_message st {| role := ASSISTANT; content := t |}, ui)
          | Raise e => (Raise e, st, ui)
          end
      end
  end.

(** ** Text extraction (lines 156-174) *)

(** [pdfplumber]: [page.extract_text()] raises, or returns [None] or the
    text; opening the document or reading [pdf.pages] may raise. *)
Definition PlumberPage := result (option str).
Definition PlumberDoc := result (list PlumberPage).

(** [PyPDF2]: [page.extract_text()] raises or returns the text; so does
    [PdfReader(pdf_file)]. *)
Definition PdfReaderPage := result str.
Definition PdfReaderDoc := result (list PdfReaderPage).

(** [len(text) > PROCESSING_CHUNK_SIZE] *)
Definition over_chunk (text : str) : bool := (PROCESSING_CHUNK_SIZE <? N.of_nat (length text))%N.

(** Lines 160-165: the text gathered, and the exception that ended the loop
    if one did. *)
Fixpoint plumber_loop (i : nat) (pages : list PlumberPage) (text : str) : str * option exn :=
  match pages with
  | [] => (text, None)
  | Raise e :: _ => (text, Some e)
  | Ok page_text :: pages' =>
      let text :=
        match page_text with
        | None | Some [] => text
        | Some t =>
            text ++ [NEWLINE; NEWLINE] ++ lit "[Page " ++ str_of_nat (i + 1) ++ lit "]"
              ++ [NEWLINE] ++ t
        end in
      if over_chunk text then (text, None) else plumber_loop (S i) pages' text
  end.

(** Lines 168-171 *)
Fixpoint reader_loop (pages : list PdfReaderPage) (text : str) : result str :=
  match pages with
  | [] => Ok text
  | page :: pages' =>
      let* t := page in
      let text := text ++ t in
      if over_chunk text then Ok text else reader_loop pages' text
  end.

(** Lines 167-171: the body of the [except:] clause. *)
Definition fallback (reader : PdfReaderDoc) (text : str) : result str :=
  let* pages := reader in reader_loop pages text.

(** Lines 157-165: the text the first library gives, and the exception
    that sent the handler to the [except:] clause if one did. *)
Definition primary (plumber : PlumberDoc) : str * option exn :=
  match plumber with
  | Raise e => ([], Some e)
  | Ok pages => plumber_loop 0 pages []
  end.

(** Lines 172-174: [Ok None] when the handler returns at line 174,
    [Ok (Some text)] when it goes on with [text]. *)
Definition check_text (extracted : result str) (ui : list Element)
  : result (option str) * list Element :=
  match extracted with
  | Raise e => (Raise e, ui)
  | Ok [] => (Ok None, ui ++ [ErrorBanner (lit "Failed to extract text.")])
  | Ok text => (Ok (Some text), ui)
  end.

(** Lines 157-174 *)
Definition extract_text (plumber : PlumberDoc) (reader : PdfReaderDoc) (ui : list Element)
  : result (option str) * list Element :=
  let extracted :=
    match primary plumber with
    | (text, None) => Ok text
    | (text, Some _) => fallback reader text
    end in
  check_text extracted ui.

(** ** Notions used in the statements *)

(** [needle in hay] *)
Definition contains (needle hay : str) : Prop := ∃ pre post, hay = pre ++ needle ++ post.

(** [hay.startswith(needle)], and [needle in hay] as a test. *)
Definition starts_with (needle hay : str) : bool :=
  bool_decide (take (length needle) hay = needle).

Fixpoint containsb (needle hay : str) : bool :=
  starts_with needle hay
  || match hay with
     | [] => false
     | _ :: hay' => containsb needle hay'
     end.

(** The text cut at the markers, put together again: the fragment before
    the first marker, then every marker followed by its fragment. *)
Fixpoint reassemble (fragments headers : list str) : str :=
  match fragments, headers with
  | f :: fragments', h :: headers' => f ++ h ++ reassemble fragments' headers'
  | f :: _, [] => f
  | [], _ => []
  end.

(** A marker as the prompt asks for it: [**Slide ], digits, a colon, a
    label on one line, [**]. *)
Definition marker (digits label : str) : str :=
  lit "**Slide " ++ digits ++ lit ":" ++ label ++ lit "**".

(** What the marker pattern is meant to find. *)
Definition well_formed_marker (h : str) : Prop :=
  ∃ digits label,
    h = marker digits label ∧ digits ≠ []
    ∧ Forall (λ c, isdecimal c = true) digits ∧ (NEWLINE ∉ label).

(** A marker and the body after it. *)
Record Segment := { digits : str; label : str; body : str }.

Definition segment_marker (sg : Segment) : str := marker (digits sg) (label sg).

(** A text written as the prompt asks: a preamble, then the segments. *)
Definition segments_text (preamble : str) (segs : list Segment) : str :=
  preamble ++ concat ((λ sg, segment_marker sg ++ body sg) <$> segs).

(** The label has no asterisk (the lazy [.*?] stops at the first [**]) and
    the body does not open another marker. *)
Definition well_formed_segment (sg : Segment) : Prop :=
  digits sg ≠ [] ∧ Forall (λ c, isdecimal c = true) (digits sg)
  ∧ (NEWLINE ∉ label sg) ∧ (chr "*" ∉ label sg)
  ∧ ¬ contains (lit "**Slide ") (body sg).

(** The record that lines 211-213 build from a body (they raise nothing:
    lemma [slide_record_ok]). *)
Definition record_of (i : nat) (content : str) : SlideRecord :=
  {| title :=
       match re.search TITLE_LINE content with
       | Some m => strip (re.group_text m)
       | None => lit "Slide " ++ str_of_nat (i + 2)
       end;
     bullets := re.findall BULLET_LINE content |}.

(** ** The example of the specification *)

Definition example_text : str :=
  lit "**Slide 1: X**" ++ [NEWLINE]
    ++ lit "* **Title:** " ++ [QUOTE] ++ lit "A" ++ [QUOTE; NEWLINE]
    ++ lit "* B1" ++ [NEWLINE]
    ++ lit "* B2" ++ [NEWLINE]
    ++ lit "**Slide 2: Y**" ++ [NEWLINE]
    ++ lit "* **Title:** " ++ [QUOTE] ++ lit "C" ++ [QUOTE].

(** The records the specification gives for it. *)
Definition example_records_of_spec : list SlideRecord :=
  [ {| title := lit "A"; bullets := [lit "B1"; lit "B2"] |};
    {| title := lit "C"; bullets := [] |} ].

(** The records the parser gives for it. *)
Definition example_records : list SlideRecord :=
  [ {| title := [QUOTE] ++ lit "A" ++ [QUOTE];
       bullets := [lit "**Title:** " ++ [QUOTE] ++ lit "A" ++ [QUOTE]; lit "B1"; lit "B2"] |};
    {| title := [QUOTE] ++ lit "C" ++ [QUOTE];
       bullets := [lit "**Title:** " ++ [QUOTE] ++ lit "C" ++ [QUOTE]] |} ].

(** The example, marker by marker. *)
Definition example_segments : list Segment :=
  [ {| digits := lit "1"; label := lit " X";
       body := [NEWLINE] ++ lit "* **Title:** " ++ [QUOTE] ++ lit "A" ++ [QUOTE; NEWLINE]
                 ++ lit "* B1" ++ [NEWLINE] ++ lit "* B2" ++ [NEWLINE] |};
    {| digits := lit "2"; label := lit " Y";
       body := [NEWLINE] ++ lit "* **Title:** " ++ [QUOTE] ++ lit "C" ++ [QUOTE] |} ].

(** ** Data of the examples *)

(** Eleven markers, one more than [MAX_SLIDES]. *)
Definition eleven_markers : str :=
  concat ((λ n, lit "**Slide " ++ str_of_nat n ++ lit ": topic**" ++ [NEWLINE]) <$> seq 1 11).

(** A session whose remote call fails, and one that answers. *)
Definition failing_session : ChatSession :=
  λ _, Raise (LibraryError (lit "429 quota exceeded")).

Definition answering_session : ChatSession :=
  λ prompt, Ok {| text := Ok (lit "You asked: " ++ prompt) |}.

(** The tab after the upload (lines 61-66). *)
Definition ready_tab (chat : ChatSession) : TabState :=
  {| messages :=
       [ {| role := ASSISTANT; content := lit "Hi! Ready to help with your PDF." |} ];
     file_processed := true;
     gemini_file := Some (lit "files/temp_upload");
     chat_session := Some chat |}.

(** ** The rest of [ppt_from_pdf] *)

(** [s.replace(old, new)] for two characters. *)
Definition replace_char (old new : char) (s : str) : str :=
  (λ c, if (c =? old)%N then new else c) <$> s.

(** Line 233: the name of the file offered for download. *)
Definition download_name (ppt_title : str) : str :=
  replace_char (chr " ") (chr "_") ppt_title ++ lit ".pptx".

(** Lines 180-194: the prompt, with [text[:PROCESSING_CHUNK_SIZE]] in it. *)
Definition build_prompt (ppt_title document : str) : str :=
  [NEWLINE]
    ++ lit "You are an expert presentation designer. Based on the content below, create a PowerPoint structure for the title: '"
    ++ ppt_title ++ lit "'." ++ [NEWLINE]
    ++ lit "PDF CONTENT:" ++ [NEWLINE]
    ++ take (N.to_nat PROCESSING_CHUNK_SIZE) document ++ [NEWLINE]
    ++ lit "Return exactly 5 slides in this format:" ++ [NEWLINE]
    ++ lit "**Slide 1: [Title Slide]**" ++ [NEWLINE]
    ++ lit "* **Title:** " ++ [QUOTE] ++ ppt_title ++ [QUOTE; NEWLINE]
    ++ lit "* **Subtitle:** " ++ [QUOTE] ++ lit "[1-line summary]" ++ [QUOTE; NEWLINE]
    ++ lit "**Slide 2: [Introduction]**" ++ [NEWLINE]
    ++ lit "* **Title:** " ++ [QUOTE] ++ lit "Intro title" ++ [QUOTE; NEWLINE]
    ++ lit "* **Bullet Points:**" ++ [NEWLINE]
    ++ lit "    * Bullet 1" ++ [NEWLINE]
    ++ lit "    * Bullet 2" ++ [NEWLINE]
    ++ lit "..." ++ [NEWLINE].

(** What the page of [ppt_from_pdf] shows: an element as before, the code
    block of line 196, or the download button of lines 230-235 with the
    saved presentation. *)
Inductive PptElement :=
| Shown (e : Element)
| CodeBlock (body : str)
| DownloadButton (file_name : str) (data : Presentation).

(** Lines 150-235.  [pdf_file] is the upload as the two libraries read it
    ([None]: nothing uploaded), [ppt_title] the value of the text input, the
    two booleans what the buttons return in this run, [generate_content] the
    model's answer to the prompt, [set_text] the text assignment of
    python-pptx. *)
Definition ppt_from_pdf (pdf_file : option (PlumberDoc * PdfReaderDoc)) (ppt_title : str)
    (generate_slides generate_powerpoint : bool)
    (generate_content : str → result Response) (set_text : str → result ()) (today : str)
  : result () * list PptElement :=
  match pdf_file with
  | None => (Ok (), [])
  | Some (plumber, reader) =>
      match extract_text plumber reader [] with
      | (Raise e, ui) => (Raise e, Shown <$> ui)
      | (Ok None, ui) => (Ok (), Shown <$> ui)
      | (Ok (Some document), ui) =>
          let page := Shown <$> ui in
          if generate_slides then
            match (let* r := generate_content (build_prompt ppt_title document) in text r) with
            | Raise e => (Raise e, page)
            | Ok slide_structure =>
                let page := page ++ [CodeBlock slide_structure] in
                if generate_powerpoint then
                  match build_presentation set_text ppt_title today slide_structure with
                  | Raise e => (Raise e, page)
                  | Ok prs => (Ok (), page ++ [DownloadButton (download_name ppt_title) prs])
                  end
                else (Ok (), page)
            end
          else (Ok (), page)
      end
  end.

(** The block that lines 162-163 add for the page of index [i]. *)
Definition page_block (i : nat) (page_text : option str) : str :=
  match page_text with
  | None | Some [] => []
  | Some t =>
      [NEWLINE; NEWLINE] ++ lit "[Page " ++ str_of_nat (i + 1) ++ lit "]" ++ [NEWLINE] ++ t
  end.

(** ** The upload step and the whole chat handlers *)

(** [file.state.name] of the remote file. *)
Inductive FileState := STATE_UNSPECIFIED | PROCESSING | ACTIVE | FAILED.

Record RemoteFile := { file_name : str; file_state : FileState }.

(** The remote service during one run: [upload_file], the answer of
    [get_file] to the poll of index [k] for a file name, and
    [start_chat] with the file in the history. *)
Record Remote := {
  upload_file : result RemoteFile;
  get_file : nat → str → result RemoteFile;
  start_chat : RemoteFile → result ChatSession
}.

Definition is_processing (file : RemoteFile) : bool :=
  match file_state file with PROCESSING => true | _ => false end.

(** Lines 54-56 and 110-112: poll until the file is no longer
    [PROCESSING]; the file and the number of polls, each after a sleep of
    two seconds.  The loop has no bound of its own: [None] when [fuel] polls
    did not end it. *)
Fixpoint wait_ready (fuel : nat) (remote : Remote) (k : nat) (file : RemoteFile)
  : option (result (RemoteFile * nat)) :=
  if is_processing file then
    match fuel with
    | 0 => None
    | S fuel' =>
        match get_file remote k (file_name file) with
        | Raise e => Some (Raise e)
        | Ok file' => wait_ready fuel' remote (S k) file'
        end
    end
  else Some (Ok (file, k)).

(** How the upload step ends: it was skipped, it ended the run with
    [st.rerun()] (which [except Exception] does not catch), or an exception
    was caught and shown. *)
Inductive UploadEnd := Skipped | Rerun | Caught.

(** Lines 48-69 and 102-126.  [prepare] stands for what comes before the
    upload (writing [temp_upload.pdf]; [pd.read_csv] and [df.to_csv]) and
    gives what the handler keeps of it (nothing; the data frame). *)
Definition upload_step {A} (greeting : str) (fuel : nat) (uploaded_file : option (result A))
    (remote : Remote) (st : TabState) (ui : list Element)
  : option (UploadEnd * option A * TabState * list Element) :=
  match uploaded_file with
  | Some prepare =>
      if file_processed st then Some (Skipped, None, st, ui)
      else
        match
          (match prepare with
           | Raise e => Some (Raise e)
           | Ok a =>
               match upload_file remote with
               | Raise e => Some (Raise e)
               | Ok file =>
                   match wait_ready fuel remote 0 file with
                   | None => None
                   | Some (Raise e) => Some (Raise e)
                   | Some (Ok (file, _)) =>
                       match start_chat remote file with
                       | Raise e => Some (Raise e)
                       | Ok chat => Some (Ok (a, file, chat))
                       end
                   end
               end
           end)
        with
        | None => None
        | Some (Raise e) => Some (Caught, None, st, ui ++ [ErrorBanner (exn_str e)])
        | Some (Ok (a, file, chat)) =>
            Some (Rerun, Some a,
                  {| messages := [ {| role := ASSISTANT; content := greeting |} ];
                     file_processed := true;
                     gemini_file := Some (file_name file);
                     chat_session := Some chat |},
                  ui)
        end
  | None => Some (Skipped, None, st, ui)
  end.

(** Lines 71-73 and 132-134: the history, drawn again in every run. *)
Definition replay (history : list Message) : list Element :=
  (λ msg, ChatMarkdown (role msg) (content msg)) <$> history.

(** How a run of a handler ends. *)
Inductive RunEnd := Finished | Rerunning | Raised (e : exn).

Definition PDF_GREETING : str := lit "Hi! Ready to help with your PDF.".
Definition CSV_GREETING : str := lit "Hi! I have loaded your CSV file.".

(** Lines 36-86.  [session] is [st.session_state.pdf_chat] when the key is
    there; [uploaded_file] says whether a file is in the uploader, with the
    outcome of writing [temp_upload.pdf]. *)
Definition pdf_chat (fuel : nat) (session : option TabState) (uploaded_file : option (result ()))
    (remote : Remote) (prompt : option str)
  : option (RunEnd * TabState * list Element) :=
  let st := default initial_tab session in
  match upload_step PDF_GREETING fuel uploaded_file remote st [] with
  | None => None
  | Some (Rerun, _, st, ui) => Some (Rerunning, st, ui)
  | Some (_, _, st, ui) =>
      let ui := ui ++ replay (messages st) in
      match chat_turn prompt st ui with
      | (Ok _, st, ui) => Some (Finished, st, ui)
      | (Raise e, st, ui) => Some (Raised e, st, ui)
      end
  end.

(** A data frame: its rows. *)
Definition DataFrame := list (list str).

(** [st.session_state.csv_chat]: the keys of the other tab, and [df]. *)
Record CsvTabState := { csv_tab : TabState; df : option DataFrame }.

(** What [csv_chat] shows: an element as before, or the preview of lines
    128-130. *)
Inductive CsvElement :=
| CsvShown (e : Element)
| DataPreview (rows : DataFrame).

(** [df.head()] *)
Definition head_rows (d : DataFrame) : DataFrame := take 5 d.

(** Lines 89-147.  [uploaded_file] carries the outcome of [pd.read_csv]
    followed by [df.to_csv]; [show_preview] is the checkbox. *)
Definition csv_chat (fuel : nat) (session : option CsvTabState)
    (uploaded_file : option (result DataFrame)) (remote : Remote) (show_preview : bool)
    (prompt : option str)
  : option (RunEnd * CsvTabState * list CsvElement) :=
  let cst := default {| csv_tab := initial_tab; df := None |} session in
  match upload_step CSV_GREETING fuel uploaded_file remote (csv_tab cst) [] with
  | None => None
  | Some (Rerun, d, st, ui) => Some (Rerunning, {| csv_tab := st; df := d |}, CsvShown <$> ui)
  | Some (_, _, st, ui) =>
      let preview :=
        match df cst with
        | Some d => if show_preview then [DataPreview (head_rows d)] else []
        | None => []
        end in
      let '(outcome, st, chat) := chat_turn prompt st (replay (messages st)) in
      Some (match outcome with Ok _ => Finished | Raise e => Raised e end,
            {| csv_tab := st; df := df cst |},
            (CsvShown <$> ui) ++ preview ++ (CsvShown <$> chat))
  end.

(** ** Data of the further examples *)

(** A page as long as [PROCESSING_CHUNK_SIZE]. *)
Definition long_page : str := replicate (N.to_nat PROCESSING_CHUNK_SIZE) (chr "a").

(** A text assignment for the examples: it refuses a text that holds U+FFFE
    or U+FFFF, with the exception text of lxml, and takes the others. *)
Definition refuses_noncharacters (t : str) : result () :=
  if existsb (λ c, (c =? 0xFFFE)%N || (c =? 0xFFFF)%N) t
  then Raise (LibraryError (lit "All strings must be XML compatible: Unicode or ASCII, no NULL bytes or control characters"))
  else Ok ().

(** A run of [ppt_from_pdf] with one page of text, a model that answers with
    the example of the specification, and both buttons returning true. *)
Definition example_model : str → result Response := λ _, Ok {| text := Ok example_text |}.

Definition example_deck : Presentation :=
  title_slide (lit "Business Report") (lit "03 November 2026")
    :: (content_slide <$> example_records).

(** A remote service whose upload gives a file that is [FAILED] at once,
    and one whose file stays [PROCESSING] at every poll. *)
Definition failed_file : RemoteFile := {| file_name := lit "files/abc"; file_state := FAILED |}.

Definition processing_file : RemoteFile :=
  {| file_name := lit "files/abc"; file_state := PROCESSING |}.

Definition remote_failed : Remote :=
  {| upload_file := Ok failed_file;
     get_file := λ _ _, Ok failed_file;
     start_chat := λ _, Ok answering_session |}.

Definition remote_stuck : Remote :=
  {| upload_file := Ok processing_file;
     get_file := λ _ _, Ok processing_file;
     start_chat := λ _, Ok answering_session |}.

(** A remote service whose file is ready at the third poll. *)
Definition remote_slow : Remote :=
  {| upload_file := Ok processing_file;
     get_file := λ k _, Ok {| file_name := lit "files/abc";
                              file_state := if 2 <=? k then ACTIVE else PROCESSING |};
     start_chat := λ _, Ok answering_session |}.

(** A remote service that refuses the upload. *)
Definition remote_down : Remote :=
  {| upload_file := Raise (LibraryError (lit "503 unavailable"));
     get_file := λ _ _, Raise (LibraryError (lit "503 unavailable"));
     start_chat := λ _, Raise (LibraryError (lit "503 unavailable")) |}.

(** The tab after the upload of the file that is [FAILED]. *)
Definition failed_tab : TabState :=
  {| messages := [ {| role := ASSISTANT; content := PDF_GREETING |} ];
     file_processed := true;
     gemini_file := Some (lit "files/abc");
     chat_session := Some answering_session |}.

(** A data frame of seven rows. *)
Definition seven_rows : DataFrame := (λ n, [str_of_nat n]) <$> seq 0 7.

Definition failed_tab_csv : TabState :=
  {| messages := [ {| role := ASSISTANT; content := CSV_GREETING |} ];
     file_processed := true;
     gemini_file := Some (lit "files/abc");
     chat_session := Some answering_session |}.

(** ** The texts of the presentation (lines 204, 205, 215 and 220) *)

(** The texts assigned to a slide of a record, and to the whole
    presentation, in the order of the assignments. *)
Definition slide_texts (r : SlideRecord) : list str := title r :: bullets r.

Definition deck_texts (ppt_title today : str) (records : list SlideRecord) : list str :=
  ppt_title :: (lit "Generated on " ++ today) :: concat (slide_texts <$> records).

(** ** The lines of a slide body (lines 211-213) *)

(** What follows a match of the group of the title and bullet patterns: the
    end of the text or a newline. *)
Definition at_line_end (s : str) : Prop :=
  match s with [] => True | c :: _ => c = NEWLINE end.

(** A title as line 212 leaves it: no newline, no white space at either
    end. *)
Definition clean_title (t : str) : Prop := (NEWLINE ∉ t) ∧ strip t = t.

(** A bullet as line 213 leaves it: no newline, no white space in front. *)
Definition clean_bullet (b : str) : Prop := (NEWLINE ∉ b) ∧ lstrip b = b.

Definition clean_record (r : SlideRecord) : Prop :=
  clean_title (title r) ∧ Forall clean_bullet (bullets r).

(** A bullet line as the prompt asks for it: on a line of its own, after
    an indentation, an asterisk, white space and the text of the bullet. *)
Record BulletLine := { indent : str; spaces : str; bullet : str }.

Definition bullet_line (l : BulletLine) : str :=
  [NEWLINE] ++ indent l ++ lit "*" ++ spaces l ++ bullet l.

Definition well_formed_bullet_line (l : BulletLine) : Prop :=
  (chr "*" ∉ indent l)
  ∧ spaces l ≠ [] ∧ Forall (λ c, isspace c = true) (spaces l)
  ∧ bullet l ≠ [] ∧ clean_bullet (bullet l).

(** A body of three bullet lines, the first of them the title line. *)
Definition example_lines : list BulletLine :=
  [ {| indent := []; spaces := lit " "; bullet := lit "**Title:** Results" |};
    {| indent := lit "  "; spaces := lit " "; bullet := lit "Revenue *up* 4%" |};
    {| indent := []; spaces := lit "   "; bullet := lit "Costs flat" |} ].

(** * Properties *)

(** ** The matcher *)

Section matcher.
Import re.

(** What a repetition that matched took: at least [min] characters of the
    class, and the continuation matched what follows them. *)
Lemma rep_sound {R} greedy cs (k : str → nat → option R) min s pos r :
  rep greedy cs k min s pos = Some r →
  ∃ j, min ≤ j ≤ length s
       ∧ Forall (λ c, cset_mem cs c = true) (take j s)
       ∧ k (drop j s) (pos + j) = Some r.
Proof.
  revert min pos. induction s as [|c s IH]; intros min pos H.
  - exists 0. rewrite Nat.add_0_r.
    destruct greedy, min; simpl in H; try discriminate; simpl; split_and!; auto with lia.
    by destruct (k [] pos).
  - assert (Hmore :
      (if cset_mem cs c then rep greedy cs k (pred min) s (S pos) else None) = Some r →
      ∃ j, min ≤ j ≤ length (c :: s)
           ∧ Forall (λ c, cset_mem cs c = true) (take j (c :: s))
           ∧ k (drop j (c :: s)) (pos + j) = Some r).
    { destruct (cset_mem cs c) eqn:Hc; [|discriminate]. intros Hr.
      destruct (IH _ _ Hr) as (j & Hj & Hall & Hk). exists (S j). simpl.
      replace (pos + S j) with (S pos + j) by lia.
      split_and!; auto with lia. }
    assert (Hstop :
      match min with 0 => k (c :: s) pos | S _ => None end = Some r →
      ∃ j, min ≤ j ≤ length (c :: s)
           ∧ Forall (λ c, cset_mem cs c = true) (take j (c :: s))
           ∧ k (drop j (c :: s)) (pos + j) = Some r).
    { destruct min; [|discriminate]. intros Hr. exists 0.
      rewrite Nat.add_0_r. simpl. split_and!; auto with lia. }
    simpl in H. destruct greedy.
    + destruct (if cset_mem cs c then _ else _) eqn:Hm.
      * apply Hmore. congruence.
      * apply Hstop. exact H.
    + destruct (match min with 0 => _ | S _ => _ end) eqn:Hs.
      * apply Hstop. congruence.
      * apply Hmore. exact H.
Qed.

(** The greedy repetition takes a whole run of the class when the
    continuation accepts what follows the run. *)
Lemma rep_greedy_all {R} cs (k : str → nat → option R) r s1 : ∀ min s2 pos,
  Forall (λ c, cset_mem cs c = true) s1 →
  match s2 with [] => True | c :: _ => cset_mem cs c = false end →
  min ≤ length s1 →
  k s2 (pos + length s1) = Some r →
  rep true cs k min (s1 ++ s2) pos = Some r.
Proof.
  induction s1 as [|c s1 IH]; intros min s2 pos Hall Hnext Hmin Hk.
  - simpl in *. assert (min = 0) as -> by lia. rewrite Nat.add_0_r in Hk.
    destruct s2 as [|c s2]; simpl; [done|]. by rewrite Hnext.
  - apply Forall_cons in Hall as [Hc Hall]. simpl. rewrite Hc.
    rewrite (IH (pred min) s2 (S pos)); [done..| |].
    + simpl in Hmin. lia.
    + rewrite <- Hk. f_equal. simpl. lia.
Qed.

(** The lazy repetition stops at the first place where the continuation
    matches. *)
Lemma rep_lazy_first {R} cs (k : str → nat → option R) r s1 : ∀ s2 pos,
  Forall (λ c, cset_mem cs c = true) s1 →
  (∀ j, j < length s1 → k (drop j s1 ++ s2) (pos + j) = None) →
  k s2 (pos + length s1) = Some r →
  rep false cs k 0 (s1 ++ s2) pos = Some r.
Proof.
  induction s1 as [|c s1 IH]; intros s2 pos Hall Hnot Hk.
  - simpl in *. rewrite Nat.add_0_r in Hk.
    destruct s2; simpl; by rewrite Hk.
  - apply Forall_cons in Hall as [Hc Hall]. simpl.
    specialize (Hnot 0) as H0. simpl in H0. rewrite Nat.add_0_r in H0.
    rewrite H0 by lia. rewrite Hc. apply IH; [done| |].
    + intros j Hj. specialize (Hnot (S j)). simpl in Hnot.
      replace (S pos + j) with (pos + S j) by lia. apply Hnot. lia.
    + rewrite <- Hk. f_equal. simpl. lia.
Qed.

(** A repetition without a minimal count matches whenever its
    continuation always does. *)
Lemma rep_total {R} greedy cs (k : str → nat → option R) :
  (∀ s pos, is_Some (k s pos)) → ∀ s pos, is_Some (rep greedy cs k 0 s pos).
Proof.
  intros Hk. induction s as [|c s IH]; intros pos; simpl.
  - destruct greedy; destruct (Hk [] pos) as [r ->]; eauto.
  - destruct (Hk (c :: s) pos) as [r ->]. destruct greedy; [|eauto].
    destruct (cset_mem cs c); [|eauto].
    destruct (IH (S pos)) as [r' ->]. eauto.
Qed.

Lemma run_nil s pos g adv :
  run [] s pos g adv = if adv && (pos =? 0) then None else Some (pos, g).
Proof. reflexivity. Qed.

Lemma run_Rep greedy min cs p s pos g adv :
  run (Rep greedy min cs :: p) s pos g adv
  = rep greedy cs (λ s' pos', run p s' pos' g adv) min s pos.
Proof. reflexivity. Qed.

Lemma run_GOpen p s pos g adv :
  run (GOpen :: p) s pos g adv = run p s pos (Some pos, g.2) adv.
Proof. reflexivity. Qed.

Lemma run_GClose p s pos g adv :
  run (GClose :: p) s pos g adv = run p s pos (g.1, Some pos) adv.
Proof. reflexivity. Qed.

(** A pattern that opens with literal text matches only a string that
    opens with it. *)
Lemma run_lits l p : ∀ s pos g adv r,
  run ((Lit <$> l) ++ p) s pos g adv = Some r →
  ∃ s', s = l ++ s' ∧ run p s' (pos + length l) g adv = Some r.
Proof.
  induction l as [|c l IH]; intros s pos g adv r H; simpl in H.
  - exists s. by rewrite Nat.add_0_r.
  - destruct s as [|x s]; [discriminate|].
    destruct (x =? c)%N eqn:Hx; [|discriminate]. apply N.eqb_eq in Hx as ->.
    apply IH in H as (s' & -> & Hr). exists s'. split; [done|].
    simpl. by replace (pos + S (length l)) with (S pos + length l) by lia.
Qed.

Lemma run_lits_app l p s pos g adv :
  run ((Lit <$> l) ++ p) (l ++ s) pos g adv = run p s (pos + length l) g adv.
Proof.
  revert pos. induction l as [|c l IH]; intros pos; simpl.
  - by rewrite Nat.add_0_r.
  - rewrite N.eqb_refl, IH. f_equal. lia.
Qed.

(** A match ends inside the string, after where it started. *)
Lemma run_bounds p : ∀ s pos g adv n g',
  run p s pos g adv = Some (n, g') → pos ≤ n ≤ pos + length s.
Proof.
  induction p as [|o p IH]; intros s pos g adv n g' H; simpl in H.
  - destruct (adv && (pos =? 0)); inversion H; lia.
  - destruct o as [c|greedy min cs| |].
    + destruct s as [|x s]; [discriminate|].
      destruct (x =? c)%N; [|discriminate]. apply IH in H. simpl. lia.
    + apply rep_sound in H as (j & Hj & _ & Hk). apply IH in Hk.
      rewrite length_drop in Hk. lia.
    + apply IH in H. lia.
    + apply IH in H. lia.
Qed.

(** With [must_advance] a match is not empty. *)
Lemma run_must_advance p : ∀ s pos g n g',
  run p s pos g true = Some (n, g') → n ≠ 0.
Proof.
  induction p as [|o p IH]; intros s pos g n g' H; simpl in H.
  - destruct (pos =? 0) eqn:Hp; [discriminate|]. inversion H; subst.
    by apply Nat.eqb_neq.
  - destruct o as [c|greedy min cs| |].
    + destruct s as [|x s]; [discriminate|].
      destruct (x =? c)%N; [|discriminate]. eauto.
    + apply rep_sound in H as (j & _ & _ & Hk). eauto.
    + eauto.
    + eauto.
Qed.

(** A match of a pattern with a group has set both marks of the group. *)
Lemma run_marks p : ∀ s pos g adv n g',
  run p s pos g adv = Some (n, g') →
  (is_Some g.1 ∨ GOpen ∈ p → is_Some g'.1) ∧ (is_Some g.2 ∨ GClose ∈ p → is_Some g'.2).
Proof.
  induction p as [|o p IH]; intros s pos g adv n g' H; simpl in H.
  - destruct (adv && (pos =? 0)); inversion H; subst.
    split; (intros [?|Hin]; [done|by apply elem_of_nil in Hin]).
  - assert (Hstep : ∀ s' pos' g0, run p s' pos' g0 adv = Some (n, g') →
        (is_Some g.1 → is_Some g0.1) → (is_Some g.2 → is_Some g0.2) →
        (o = GOpen → is_Some g0.1) → (o = GClose → is_Some g0.2) →
        (is_Some g.1 ∨ GOpen ∈ o :: p → is_Some g'.1)
        ∧ (is_Some g.2 ∨ GClose ∈ o :: p → is_Some g'.2)).
    { intros s' pos' g0 Hr H1 H2 Ho Hc. apply IH in Hr as [Hr1 Hr2].
      split.
      - intros [?|[Heq|?]%elem_of_cons]; apply Hr1; auto.
      - intros [?|[Heq|?]%elem_of_cons]; apply Hr2; auto. }
    destruct o as [c|greedy min cs| |].
    + destruct s as [|x s]; [discriminate|].
      destruct (x =? c)%N; [|discriminate]. by eapply Hstep.
    + apply rep_sound in H as (j & _ & _ & Hk). by eapply Hstep.
    + eapply Hstep; [done|simpl; auto..|done].
    + eapply Hstep; [done|simpl; auto..|done|auto].
Qed.

Lemma match_here_inv p s adv n m :
  match_here p s adv = Some (n, m) →
  n ≤ length s ∧ group0 m = take n s ∧ (adv = true → n ≠ 0).
Proof.
  unfold match_here. destruct (run p s 0 (None, None) adv) as [[k [gb ge]]|] eqn:Hrun;
    [|discriminate].
  intros H. assert (n = k ∧ group0 m = take k s) as [-> Hm].
  { destruct gb, ge; inversion H; subst; auto. }
  split; [apply run_bounds in Hrun; lia|]. split; [done|].
  intros ->. by apply run_must_advance in Hrun.
Qed.

Lemma match_here_group1 p s adv n m :
  GOpen ∈ p → GClose ∈ p → match_here p s adv = Some (n, m) → is_Some (group1 m).
Proof.
  intros Ho Hc. unfold match_here.
  destruct (run p s 0 (None, None) adv) as [[k [gb ge]]|] eqn:Hrun; [|discriminate].
  apply run_marks in Hrun as [H1 H2]. simpl in *.
  destruct H1 as [b ->]; [auto|]. destruct H2 as [e ->]; [auto|].
  intros H; inversion H; subst. simpl. eauto.
Qed.

Lemma match_here_lits l p s adv n m :
  match_here ((Lit <$> l) ++ p) s adv = Some (n, m) → ∃ s', s = l ++ s'.
Proof.
  unfold match_here.
  destruct (run _ s 0 (None, None) adv) as [r|] eqn:Hrun; [|discriminate].
  apply run_lits in Hrun as (s' & -> & _). eauto.
Qed.

Lemma search_from_lits_contains l p s : ∀ adv pre m rest,
  search_from ((Lit <$> l) ++ p) s adv = Some (pre, m, rest) → contains l s.
Proof.
  induction s as [|c s IH]; intros adv pre m rest H; simpl in H.
  - destruct (match_here _ [] adv) as [[n m']|] eqn:Hm; [|discriminate].
    apply match_here_lits in Hm as [s' Hs]. by exists [], s'.
  - destruct (match_here _ (c :: s) adv) as [[n m']|] eqn:Hm.
    + apply match_here_lits in Hm as [s' Hs]. by exists [], s'.
    + destruct (search_from _ s false) as [[[pre' m'] rest']|] eqn:Hs; [|discriminate].
      apply IH in Hs as (a & b & ->). by exists (c :: a), b.
Qed.

End matcher.

(** ** The search and the scan *)

Section scan.
Import re.
Variable p : pattern.

Lemma search_from_unfold s adv :
  search_from p s adv
  = match match_here p s adv with
    | Some (n, m) => Some ([], m, drop n s)
    | None =>
        match s with
        | [] => None
        | c :: s' =>
            match search_from p s' false with
            | Some (pre, m, rest) => Some (c :: pre, m, rest)
            | None => None
            end
        end
    end.
Proof. by destruct s. Qed.

Lemma scan_S fuel s adv :
  scan (S fuel) p s adv
  = match search_from p s adv with
    | None => ([], s)
    | Some (pre, m, rest) =>
        let '(ms, tl) := scan fuel p rest (bool_decide (group0 m = [])) in
        ((pre, m) :: ms, tl)
    end.
Proof. reflexivity. Qed.

(** The search cuts the string in three, and after an empty match it does
    not report the same empty match again. *)
Lemma search_from_inv s : ∀ adv pre m rest,
  search_from p s adv = Some (pre, m, rest) →
  s = pre ++ group0 m ++ rest ∧ (adv = true → pre = [] → group0 m ≠ []).
Proof.
  induction s as [|c s IH]; intros adv pre m rest H; simpl in H.
  - destruct (match_here p [] adv) as [[n m']|] eqn:Hm; [|discriminate].
    inversion H; subst. apply match_here_inv in Hm as (Hn & Hg & Hadv).
    simpl in Hn. assert (n = 0) as -> by lia. split.
    + by rewrite Hg.
    + intros Ha _. by apply Hadv in Ha.
  - destruct (match_here p (c :: s) adv) as [[n m']|] eqn:Hm.
    + inversion H; subst. apply match_here_inv in Hm as (Hn & Hg & Hadv). split.
      * rewrite Hg. simpl. by rewrite take_drop.
      * intros Ha _ Hnil. apply Hadv in Ha. rewrite Hg in Hnil.
        destruct n; [done|]. discriminate.
    + destruct (search_from p s false) as [[[pre' m'] rest']|] eqn:Hs; [|discriminate].
      inversion H; subst. apply IH in Hs as [-> _]. split; [done|]. discriminate.
Qed.

(** What the search reports is a match of the pattern where it stands. *)
Lemma search_from_match s : ∀ adv pre m rest,
  search_from p s adv = Some (pre, m, rest) →
  ∃ adv', match_here p (group0 m ++ rest) adv' = Some (length (group0 m), m).
Proof.
  induction s as [|c s IH]; intros adv pre m rest H; simpl in H.
  - destruct (match_here p [] adv) as [[n m']|] eqn:Hm; [|discriminate].
    inversion H; subst. exists adv. pose proof Hm as Hm'.
    apply match_here_inv in Hm' as (Hn & Hg & _). simpl in Hn.
    assert (n = 0) as -> by lia. rewrite Hg. simpl. by rewrite Hm.
  - destruct (match_here p (c :: s) adv) as [[n m']|] eqn:Hm.
    + inversion H; subst. exists adv. pose proof Hm as Hm'.
      apply match_here_inv in Hm' as (Hn & Hg & _).
      rewrite Hg, take_drop, length_take, Nat.min_l by done. done.
    + destruct (search_from p s false) as [[[pre' m'] rest']|] eqn:Hs; [|discriminate].
      inversion H; subst. eauto.
Qed.

(** The search finds a match when there is one somewhere. *)
Lemma search_from_complete s : ∀ pre,
  is_Some (match_here p s false) → is_Some (search_from p (pre ++ s) false).
Proof.
  intros pre Hm. induction pre as [|c pre IH].
  - rewrite search_from_unfold. simpl. by destruct Hm as [[n m] ->].
  - rewrite search_from_unfold.
    destruct (match_here p ((c :: pre) ++ s) false) as [[n m]|]; [done|].
    simpl. by destruct IH as [[[pre' m'] rest'] ->].
Qed.

Lemma search_group1 s m :
  GOpen ∈ p → GClose ∈ p → search p s = Some m → is_Some (group1 m).
Proof.
  intros Ho Hc. unfold search.
  destruct (search_from p s false) as [[[pre m'] rest]|] eqn:Hs; [|discriminate].
  intros H; inversion H; subst. apply search_from_match in Hs as [adv Hm].
  by eapply match_here_group1.
Qed.

(** Every turn of the scan decreases the measure. *)
Lemma search_from_measure s adv pre m rest :
  search_from p s adv = Some (pre, m, rest) →
  scan_measure rest (bool_decide (group0 m = [])) < scan_measure s adv.
Proof.
  intros Hs. apply search_from_inv in Hs as [Hs Hadv].
  assert (Hlen : length s = length pre + length (group0 m) + length rest).
  { rewrite Hs at 1. rewrite !length_app. lia. }
  unfold scan_measure. case_bool_decide as Hg.
  - rewrite Hg in *. simpl in Hlen. destruct adv; [|lia].
    destruct pre; [by destruct Hadv|simpl in Hlen; lia].
  - destruct (group0 m); [done|]. simpl in Hlen. destruct adv; lia.
Qed.

(** Fuel beyond the measure changes nothing: the scan with [scan_fuel] is
    the whole scan. *)
Lemma scan_fuel_irrelevant : ∀ n n' s adv,
  scan_measure s adv ≤ n → scan_measure s adv ≤ n' →
  scan n p s adv = scan n' p s adv.
Proof.
  induction n as [|n IH]; intros n' s adv Hn Hn'.
  { unfold scan_measure in Hn. destruct adv; lia. }
  destruct n' as [|n']; [unfold scan_measure in Hn'; destruct adv; lia|].
  rewrite !scan_S. destruct (search_from p s adv) as [[[pre m] rest]|] eqn:Hs; [|done].
  apply search_from_measure in Hs. rewrite (IH n' rest); [done|lia..].
Qed.

Corollary scan_enough_fuel s n :
  scan_fuel s ≤ n → scan n p s false = scan (scan_fuel s) p s false.
Proof.
  intros Hn. apply scan_fuel_irrelevant; unfold scan_measure, scan_fuel in *; lia.
Qed.

(** The scan loses no character and keeps the order. *)
Lemma scan_app : ∀ fuel s adv ms tl,
  scan fuel p s adv = (ms, tl) →
  s = concat ((λ pm : str * Match, pm.1 ++ group0 pm.2) <$> ms) ++ tl.
Proof.
  induction fuel as [|fuel IH]; intros s adv ms tl H; simpl in H.
  { by inversion H. }
  destruct (search_from p s adv) as [[[pre m] rest]|] eqn:Hs; [|by inversion H].
  destruct (scan fuel p rest _) as [ms' tl'] eqn:Hscan. inversion H; subst.
  apply search_from_inv in Hs as [-> _]. apply IH in Hscan.
  simpl. rewrite <- !app_assoc. by do 2 f_equal.
Qed.

Lemma scan_matches : ∀ fuel s adv,
  Forall (λ pm : str * Match,
            ∃ adv' rest, match_here p (group0 pm.2 ++ rest) adv'
                         = Some (length (group0 pm.2), pm.2))
    (scan fuel p s adv).1.
Proof.
  induction fuel as [|fuel IH]; intros s adv; simpl; [constructor|].
  destruct (search_from p s adv) as [[[pre m] rest]|] eqn:Hs; [|constructor].
  specialize (IH rest (bool_decide (group0 m = []))).
  destruct (scan fuel p rest _) as [ms tl]. simpl in *. constructor; [|done].
  apply search_from_match in Hs as [adv' Hm]. simpl. eauto.
Qed.

(** [split] and [findall] of a pattern without group: the fragments and
    the matches of one scan. *)
Hypothesis no_group : has_group p = false.

Lemma split_no_group s :
  split p s = (fst <$> (scan (scan_fuel s) p s false).1) ++ [(scan (scan_fuel s) p s false).2].
Proof.
  unfold split. destruct (scan _ p s false) as [ms tl]. rewrite no_group. simpl.
  f_equal. induction ms as [|pm ms IH]; [done|]. simpl. f_equal. exact IH.
Qed.

Lemma findall_no_group s :
  findall p s = (λ pm : str * Match, group0 pm.2) <$> (scan (scan_fuel s) p s false).1.
Proof. unfold findall. by rewrite no_group. Qed.

Lemma split_length s : length (split p s) = S (length (findall p s)).
Proof.
  rewrite split_no_group, findall_no_group.
  rewrite length_app, !length_fmap. simpl. lia.
Qed.

Lemma reassemble_scan (ms : list (str * Match)) (tl : str) :
  reassemble ((fst <$> ms) ++ [tl]) ((λ pm : str * Match, group0 pm.2) <$> ms)
  = concat ((λ pm : str * Match, pm.1 ++ group0 pm.2) <$> ms) ++ tl.
Proof.
  induction ms as [|[pre m] ms IH]; [done|]. simpl.
  rewrite <- !app_assoc. do 2 f_equal. exact IH.
Qed.

Lemma reassemble_split_findall s : reassemble (split p s) (findall p s) = s.
Proof.
  rewrite split_no_group, findall_no_group.
  rewrite reassemble_scan. symmetry. apply (scan_app (scan_fuel s) s false).
  by destruct (scan _ p s false).
Qed.

End scan.

(** ** The three patterns *)

Section patterns.
Import re.

Lemma SLIDE_MARKER_eq :
  SLIDE_MARKER
  = (Lit <$> lit "**Slide ")
      ++ Rep true 1 Digit
      :: (Lit <$> lit ":") ++ Rep false 0 Any :: (Lit <$> lit "**") ++ [].
Proof. reflexivity. Qed.

Lemma TITLE_LINE_eq :
  TITLE_LINE
  = (Lit <$> lit "**Title:**")
      ++ [Rep true 0 Space; GOpen; Rep true 0 Any; GClose].
Proof. reflexivity. Qed.

Lemma SLIDE_MARKER_no_group : has_group SLIDE_MARKER = false.
Proof. reflexivity. Qed.

Lemma TITLE_LINE_marks : GOpen ∈ TITLE_LINE ∧ GClose ∈ TITLE_LINE.
Proof.
  rewrite TITLE_LINE_eq. split; apply elem_of_app; right; rewrite !elem_of_cons; auto 10.
Qed.

Lemma marker_length digits label :
  length (marker digits label) = 8 + length digits + 1 + length label + 2.
Proof. unfold marker. rewrite !length_app. vm_compute (length (lit _)). lia. Qed.

Lemma lit_Slide : lit "**Slide " = [42; 42; 83; 108; 105; 100; 101; 32]%N.
Proof. reflexivity. Qed.

(** What the marker pattern matches is a marker. *)
Lemma match_here_SLIDE_MARKER_inv s adv n m :
  match_here SLIDE_MARKER s adv = Some (n, m) →
  ∃ digits label rest,
    s = marker digits label ++ rest ∧ digits ≠ []
    ∧ Forall (λ c, isdecimal c = true) digits ∧ (NEWLINE ∉ label)
    ∧ n = length (marker digits label)
    ∧ m = {| group0 := marker digits label; group1 := None |}.
Proof.
  unfold match_here.
  destruct (run SLIDE_MARKER s 0 (None, None) adv) as [[k g]|] eqn:Hrun; [|discriminate].
  rewrite SLIDE_MARKER_eq in Hrun.
  apply run_lits in Hrun as (s1 & -> & Hrun). rewrite run_Rep in Hrun.
  apply rep_sound in Hrun as (j & Hj & Hds & Hrun).
  apply run_lits in Hrun as (s2 & Hs1 & Hrun). rewrite run_Rep in Hrun.
  apply rep_sound in Hrun as (j2 & Hj2 & Hlbl & Hrun).
  apply run_lits in Hrun as (s3 & Hs2 & Hrun). rewrite run_nil in Hrun.
  vm_compute (length (lit _)) in Hrun.
  assert (Hs : lit "**Slide " ++ s1 = marker (take j s1) (take j2 s2) ++ s3).
  { unfold marker. rewrite <- !app_assoc. f_equal.
    rewrite <- (take_drop j s1) at 1. f_equal. rewrite Hs1. f_equal.
    rewrite <- (take_drop j2 s2) at 1. f_equal. exact Hs2. }
  assert (Hlen : 8 + j + 1 + j2 + 2 = length (marker (take j s1) (take j2 s2))).
  { rewrite marker_length, !length_take.
    assert (length (drop j s1) = S (length s2)) as Hd by (by rewrite Hs1).
    rewrite length_drop in Hd. lia. }
  replace (0 + 8 + j + 1 + j2 + 2 =? 0) with false in Hrun
    by (symmetry; apply Nat.eqb_neq; lia).
  rewrite andb_false_r in Hrun.
  assert (k = length (marker (take j s1) (take j2 s2)) ∧ g = (None, None)) as [-> ->].
  { injection Hrun as <- <-. split; [lia|done]. }
  clear Hrun. cbv beta iota. rewrite Hs, take_app_length. intros [= <- <-].
  exists (take j s1), (take j2 s2), s3. split_and!; try done.
  - intros Hnil. apply (f_equal length) in Hnil. rewrite length_take in Hnil.
    simpl in Hnil. lia.
  - intros Hin. eapply Forall_forall in Hlbl; [|exact Hin]. discriminate.
Qed.

(** Every header that [findall] reports is a marker. *)
Lemma findall_SLIDE_MARKER_well_formed s :
  Forall well_formed_marker (findall SLIDE_MARKER s).
Proof.
  rewrite findall_no_group by done. apply Forall_fmap.
  eapply Forall_impl; [apply scan_matches|].
  intros [pre m] (adv & rest & Hm). simpl in *.
  apply match_here_SLIDE_MARKER_inv in Hm
    as (digits & label & rest' & _ & Hd & Hds & Hl & _ & ->).
  simpl. by exists digits, label.
Qed.

(** A marker whose label has no asterisk is matched as a whole. *)
Lemma match_here_marker digits label rest adv :
  digits ≠ [] → Forall (λ c, isdecimal c = true) digits →
  NEWLINE ∉ label → chr "*" ∉ label →
  match_here SLIDE_MARKER (marker digits label ++ rest) adv
  = Some (length (marker digits label),
          {| group0 := marker digits label; group1 := None |}).
Proof.
  intros Hd Hds Hnl Hstar. unfold match_here.
  assert (Hrun : run SLIDE_MARKER (marker digits label ++ rest) 0 (None, None) adv
                 = Some (length (marker digits label), (None, None))).
  { rewrite SLIDE_MARKER_eq. unfold marker. rewrite <- !app_assoc.
    rewrite run_lits_app, run_Rep.
    apply rep_greedy_all; [done|done| |].
    { destruct digits; [done|]. simpl. lia. }
    rewrite run_lits_app, run_Rep.
    apply rep_lazy_first.
    - apply Forall_forall. intros c Hc. simpl.
      destruct (c =? NEWLINE)%N eqn:Heq; [|done].
      apply N.eqb_eq in Heq as ->. done.
    - intros j Hj. destruct (drop j label) as [|c l] eqn:Hdrop.
      { apply (f_equal length) in Hdrop. rewrite length_drop in Hdrop.
        simpl in Hdrop. lia. }
      assert (c ∈ label) as Hc.
      { apply (list_elem_of_lookup_2 _ j).
        rewrite <- (Nat.add_0_r j), <- lookup_drop. by rewrite Hdrop. }
      change (run _ ((c :: l) ++ _) ?pos ?g ?a)
        with (if (c =? chr "*")%N
              then run [Lit (chr "*")] (l ++ lit "**" ++ rest) (S pos) g a
              else None).
      destruct (c =? chr "*")%N eqn:Heq; [|done].
      apply N.eqb_eq in Heq as ->. done.
    - rewrite run_lits_app, run_nil.
      rewrite !length_app. vm_compute (length (lit _)).
      replace (_ =? 0) with false by (symmetry; apply Nat.eqb_neq; lia).
      rewrite andb_false_r. do 2 f_equal. lia. }
  rewrite Hrun. by rewrite take_app_length.
Qed.

Lemma contains_cons l c s : contains l s → contains l (c :: s).
Proof. intros (a & b & ->). by exists (c :: a), b. Qed.

(** The test [containsb] misses no occurrence. *)
Lemma containsb_complete needle hay : contains needle hay → containsb needle hay = true.
Proof.
  intros (pre & post & ->). induction pre as [|c pre IH]; simpl.
  - assert (starts_with needle (needle ++ post) = true) as Hs.
    { unfold starts_with. apply bool_decide_eq_true. by rewrite take_app_length. }
    destruct (needle ++ post); simpl; by rewrite Hs.
  - rewrite IH. apply orb_true_r.
Qed.

Lemma not_contains needle hay : containsb needle hay = false → ¬ contains needle hay.
Proof. intros Hb Hc. apply containsb_complete in Hc. congruence. Qed.

(** No marker starts inside a fragment without [**Slide ], also when a
    marker follows the fragment. *)
Lemma no_marker_start b tail s' :
  b ≠ [] → ¬ contains (lit "**Slide ") b →
  tail = [] ∨ (∃ t, tail = lit "**Slide " ++ t) →
  b ++ tail ≠ lit "**Slide " ++ s'.
Proof.
  intros Hb Hnot [->|[t ->]] H.
  - rewrite app_nil_r in H. apply Hnot. by exists [], s'.
  - rewrite lit_Slide in *.
    destruct b as [|b1 b]; [done|].
    do 7 (destruct b as [|? b]; [by simplify_eq/=|]).
    simplify_eq/=. apply Hnot. by exists [], b.
Qed.

Lemma search_from_fragment f : ∀ tail,
  ¬ contains (lit "**Slide ") f →
  tail = [] ∨ (∃ t, tail = lit "**Slide " ++ t) →
  search_from SLIDE_MARKER (f ++ tail) false
  = match search_from SLIDE_MARKER tail false with
    | Some (pre, m, rest) => Some (f ++ pre, m, rest)
    | None => None
    end.
Proof.
  induction f as [|c f IH]; intros tail Hnot Htail.
  - simpl. by destruct (search_from _ tail false) as [[[? ?] ?]|].
  - rewrite search_from_unfold.
    destruct (match_here SLIDE_MARKER ((c :: f) ++ tail) false) as [[n m]|] eqn:Hm.
    { rewrite SLIDE_MARKER_eq in Hm.
      apply match_here_lits in Hm as [s' Hs'].
      by apply no_marker_start in Hs'. }
    simpl. rewrite IH; [|by intros ?%(contains_cons _ c)|done].
    by destruct (search_from _ tail false) as [[[? ?] ?]|].
Qed.

Lemma search_from_marker f sg rest :
  ¬ contains (lit "**Slide ") f → well_formed_segment sg →
  search_from SLIDE_MARKER (f ++ segment_marker sg ++ rest) false
  = Some (f, {| group0 := segment_marker sg; group1 := None |}, rest).
Proof.
  intros Hf (Hd & Hds & Hnl & Hstar & _).
  rewrite search_from_fragment; [|done|].
  2:{ right. unfold segment_marker, marker. rewrite <- app_assoc. eauto. }
  rewrite search_from_unfold. unfold segment_marker.
  rewrite match_here_marker by done.
  by rewrite drop_app_length, app_nil_r.
Qed.

Lemma search_from_no_marker f :
  ¬ contains (lit "**Slide ") f → search_from SLIDE_MARKER f false = None.
Proof.
  intros Hf. rewrite <- (app_nil_r f). rewrite search_from_fragment; auto.
Qed.

Lemma segments_text_cons f sg segs :
  segments_text f (sg :: segs) = f ++ segment_marker sg ++ segments_text (body sg) segs.
Proof. unfold segments_text. simpl. by rewrite <- !app_assoc. Qed.

(** The scan of a text written as the prompt asks finds its markers and
    cuts it at them. *)
Lemma scan_segments segs : ∀ f n,
  ¬ contains (lit "**Slide ") f → Forall well_formed_segment segs →
  scan_measure (segments_text f segs) false ≤ n →
  let '(ms, tl) := scan n SLIDE_MARKER (segments_text f segs) false in
  (fst <$> ms) ++ [tl] = f :: (body <$> segs)
  ∧ (λ pm : str * Match, group0 pm.2) <$> ms = segment_marker <$> segs.
Proof.
  induction segs as [|sg segs IH]; intros f n Hf Hsegs Hn.
  - destruct n as [|n]; [unfold scan_measure in Hn; cbv iota in Hn; lia|].
    rewrite scan_S. unfold segments_text. simpl. rewrite app_nil_r.
    by rewrite search_from_no_marker.
  - apply Forall_cons in Hsegs as [Hsg Hsegs].
    destruct n as [|n]; [unfold scan_measure in Hn; cbv iota in Hn; lia|].
    rewrite scan_S, segments_text_cons, search_from_marker by done.
    cbn [group0]. rewrite bool_decide_eq_false_2.
    2:{ intros Hnil. apply (f_equal length) in Hnil. unfold segment_marker in Hnil.
        rewrite marker_length in Hnil. simpl in Hnil. lia. }
    specialize (IH (body sg) n).
    destruct (scan n SLIDE_MARKER (segments_text (body sg) segs) false) as [ms tl].
    destruct IH as [IH1 IH2]; [by destruct Hsg as (_ & _ & _ & _ & ?)|done| |].
    { rewrite segments_text_cons in Hn. unfold scan_measure in *.
      rewrite !length_app in Hn. unfold segment_marker in Hn.
      rewrite marker_length in Hn. cbv iota in *. lia. }
    rewrite !fmap_cons, <- app_comm_cons, IH1, IH2. done.
Qed.

Lemma split_findall_segments f segs :
  ¬ contains (lit "**Slide ") f → Forall well_formed_segment segs →
  split SLIDE_MARKER (segments_text f segs) = f :: (body <$> segs)
  ∧ findall SLIDE_MARKER (segments_text f segs) = segment_marker <$> segs.
Proof.
  intros Hf Hsegs. rewrite split_no_group, findall_no_group by done.
  pose proof (scan_segments segs f (scan_fuel (segments_text f segs)) Hf Hsegs) as H.
  destruct (scan _ SLIDE_MARKER _ false) as [ms tl]. apply H.
  unfold scan_measure, scan_fuel. cbv iota. lia.
Qed.

(** A text without [**Slide ] has no marker. *)
Lemma findall_no_marker s :
  ¬ contains (lit "**Slide ") s → findall SLIDE_MARKER s = [].
Proof.
  intros Hs. destruct (split_findall_segments s [] Hs) as [_ H]; [constructor|].
  unfold segments_text in H. simpl in H. by rewrite app_nil_r in H.
Qed.

(** The title pattern matches exactly the bodies that contain
    [**Title:**]. *)
Lemma search_TITLE_LINE_None content :
  search TITLE_LINE content = None ↔ ¬ contains (lit "**Title:**") content.
Proof.
  unfold search. split.
  - intros Hs (pre & post & ->).
    destruct (search_from_complete TITLE_LINE (lit "**Title:**" ++ post) pre)
      as [[[? ?] ?] Hsome]; [|by rewrite Hsome in Hs].
    unfold match_here. rewrite TITLE_LINE_eq, run_lits_app, run_Rep.
    destruct (rep_total true Space
                (λ s' pos', run [GOpen; Rep true 0 Any; GClose] s' pos' (None, None) false))
      with (s := post) (pos := 0 + length (lit "**Title:**")) as [[n [gb ge]] ->].
    { intros s pos. rewrite run_GOpen, run_Rep. apply rep_total.
      intros s' pos'. rewrite run_GClose, run_nil. simpl. eauto. }
    destruct gb, ge; eauto.
  - intros Hnot.
    destruct (search_from TITLE_LINE content false) as [[[pre m] rest]|] eqn:Hs; [|done].
    rewrite TITLE_LINE_eq in Hs. by apply search_from_lits_contains in Hs.
Qed.

End patterns.

(** ** The slide-structure parser *)

Section parser.

Lemma slide_content_default slides i :
  slide_content slides i = Ok (default [] (slides !! (i + 1))).
Proof.
  unfold slide_content, getitem. case_bool_decide as Hi.
  - destruct (lookup_lt_is_Some_2 slides (i + 1) Hi) as [x Hx]. by rewrite Hx.
  - by rewrite lookup_ge_None_2 by lia.
Qed.

(** [title_match.group(1)] is there whenever [title_match] is. *)
Lemma slide_title_ok content i :
  slide_title (re.search TITLE_LINE content) i = Ok (title (record_of i content)).
Proof.
  unfold slide_title, record_of. simpl.
  destruct (re.search TITLE_LINE content) as [m|] eqn:Hs; [|done].
  destruct TITLE_LINE_marks as [Ho Hc].
  destruct (search_group1 _ _ _ Ho Hc Hs) as [g Hg].
  unfold group, re.group_text. by rewrite Hg.
Qed.

(** The body of the loop does not raise. *)
Lemma slide_record_ok slides i :
  slide_record slides i = Ok (record_of i (default [] (slides !! (i + 1)))).
Proof.
  unfold slide_record. rewrite slide_content_default. simpl.
  by rewrite slide_title_ok.
Qed.

Lemma for_enumerate_collect {A B C} (f : nat → result B) (h : nat → B) (g : B → C) :
  (∀ i, f i = Ok (h i)) →
  ∀ (l : list A) i acc,
    for_enumerate (λ acc i _, let* r := f i in Ok (acc ++ [g r])) i l acc
    = Ok (acc ++ ((λ j, g (h j)) <$> seq i (length l))).
Proof.
  intros Hf. induction l as [|x l IH]; intros i acc; simpl.
  - by rewrite app_nil_r.
  - rewrite Hf. simpl. rewrite IH. by rewrite <- app_assoc.
Qed.

(** The fragments after the first one, numbered by the loop, are the
    bodies of the records. *)
Lemma records_of_fragments (g : SlideRecord → SlideRecord) (slides : list str) k :
  length slides = S k →
  (λ i, g (record_of i (default [] (slides !! (i + 1))))) <$> seq 0 k
  = imap (λ i content, g (record_of i content)) (drop 1 slides).
Proof.
  intros Hlen.
  replace k with (length (drop 1 slides)) by (rewrite length_drop; lia).
  rewrite <- (imap_seq_0 (drop 1 slides)
                (λ i, g (record_of i (default [] (slides !! (i + 1)))))).
  apply imap_ext. intros i content Hi. simpl.
  rewrite lookup_drop in Hi. replace (i + 1) with (1 + i) by lia. by rewrite Hi.
Qed.

Lemma parse_slides_eq s :
  parse_slides s = Ok (imap record_of (drop 1 (re.split SLIDE_MARKER s))).
Proof.
  unfold parse_slides.
  rewrite (for_enumerate_collect _ _ id (slide_record_ok _)). simpl. f_equal.
  apply (records_of_fragments id), split_length, SLIDE_MARKER_no_group.
Qed.

Lemma for_each_app {A} (f : A → result ()) (l1 l2 : list A) :
  for_each f (l1 ++ l2) = let* _ := for_each f l1 in for_each f l2.
Proof.
  induction l1 as [|x l1 IH]; simpl; [done|]. destruct (f x) as [[]|e]; simpl; [apply IH|done].
Qed.

(** The loop returns when every item is taken, and otherwise raises what
    the first item raised that was not. *)
Lemma for_each_Ok {A} (f : A → result ()) (l : list A) :
  for_each f l = Ok () ↔ Forall (λ x, f x = Ok ()) l.
Proof.
  induction l as [|x l IH]; simpl; [split; auto|]. rewrite Forall_cons, <- IH.
  destruct (f x) as [[]|e]; simpl.
  - split; [by intros ->|by intros [_ ->]].
  - split; [done|]. by intros [? _].
Qed.

Lemma for_each_Raise {A} (f : A → result ()) (l : list A) (e : exn) :
  for_each f l = Raise e →
  ∃ before x after, l = before ++ x :: after ∧ Forall (λ y, f y = Ok ()) before ∧ f x = Raise e.
Proof.
  induction l as [|x l IH]; simpl; [done|]. destruct (f x) as [[]|e'] eqn:Hx; simpl.
  - intros (before & y & after & -> & Hb & Hy)%IH.
    exists (x :: before), y, after. split_and!; [done| |done]. by constructor.
  - intros [= ->]. by exists [], x, l.
Qed.

Lemma for_enumerate_render {A} (set_text : str → result ()) (f : nat → result SlideRecord)
    (h : nat → SlideRecord) :
  (∀ i, f i = Ok (h i)) →
  ∀ (l : list A) i prs,
    for_enumerate
      (λ (prs : Presentation) i _,
         let* r := f i in
         let* _ := set_text (title r) in
         let* _ := for_each set_text (bullets r) in
         Ok (prs ++ [content_slide r]))
      i l prs
    = let* _ := for_each set_text (concat ((λ j, slide_texts (h j)) <$> seq i (length l))) in
      Ok (prs ++ ((λ j, content_slide (h j)) <$> seq i (length l))).
Proof.
  intros Hf. induction l as [|x l IH]; intros i prs; simpl.
  - by rewrite app_nil_r.
  - rewrite Hf. simpl. destruct (set_text (title (h i))) as [[]|e]; simpl; [|done].
    rewrite for_each_app. destruct (for_each set_text (bullets (h i))) as [[]|e]; simpl; [|done].
    rewrite IH. destruct (for_each set_text _) as [[]|e]; simpl; [|done].
    by rewrite <- app_assoc.
Qed.

(** The loop of lines 209-224 assigns the texts of each record of
    [parse_slides], in their order, after those of the title slide; when
    python-pptx takes them all, the presentation is the title slide and
    the slide of each record. *)
Lemma build_presentation_parse set_text ppt_title today s :
  build_presentation set_text ppt_title today s
  = let* records := parse_slides s in
    let* _ := for_each set_text (deck_texts ppt_title today records) in
    Ok (title_slide ppt_title today :: (content_slide <$> records)).
Proof.
  rewrite parse_slides_eq. unfold build_presentation, deck_texts.
  generalize (lit "Generated on " ++ today). intros date_line. simpl.
  destruct (set_text ppt_title) as [[]|e]; simpl; [|done].
  destruct (set_text date_line) as [[]|e]; simpl; [|done].
  rewrite (for_enumerate_render set_text _ _ (slide_record_ok _)).
  assert ((λ i, record_of i (default [] (re.split SLIDE_MARKER s !! (i + 1))))
            <$> seq 0 (length (re.findall SLIDE_MARKER s))
          = imap record_of (drop 1 (re.split SLIDE_MARKER s))) as <-
    by apply (records_of_fragments id), split_length, SLIDE_MARKER_no_group.
  rewrite <- !list_fmap_compose. reflexivity.
Qed.

Lemma parse_slides_length s records :
  parse_slides s = Ok records → length records = length (re.findall SLIDE_MARKER s).
Proof.
  rewrite parse_slides_eq. intros [= <-].
  rewrite length_imap, length_drop, split_length by apply SLIDE_MARKER_no_group.
  simpl. lia.
Qed.

(** A text written as the prompt asks, with [k] markers, gives [k]
    records, one from the body of each marker. *)
Lemma parse_slides_segments f segs :
  ¬ contains (lit "**Slide ") f → Forall well_formed_segment segs →
  parse_slides (segments_text f segs) = Ok (imap (λ i sg, record_of i (body sg)) segs).
Proof.
  intros Hf Hsegs. rewrite parse_slides_eq.
  destruct (split_findall_segments f segs Hf Hsegs) as [-> _].
  simpl. rewrite drop_0. by rewrite imap_fmap.
Qed.

(** C1 (as the code has it).  The example of the specification gives two
    records; the title of each keeps its quote characters, and the Title line
    is the first bullet of its slide. *)
Theorem example_parsed : parse_slides example_text = Ok example_records.
Proof. vm_compute. reflexivity. Qed.

(** C1 (as the specification has it): the records the specification gives
    for its example are not the ones the parser returns. *)
Lemma example_not_as_specified : parse_slides example_text ≠ Ok example_records_of_spec.
Proof. vm_compute. discriminate. Qed.

(** C2.  The parser returns one record per marker that the scan finds, in
    the order of the text: the headers are markers, the text is the
    fragments and the headers in turn, and the record of index [i] is built
    from the fragment that follows header [i].  For a text written as [k]
    markers, each followed by its body, the scan finds these [k] markers,
    and the records are those of the [k] bodies. *)
Theorem one_record_per_marker (s : str) :
  let headers := re.findall SLIDE_MARKER s in
  let slides := re.split SLIDE_MARKER s in
  (Forall well_formed_marker headers
   ∧ reassemble slides headers = s
   ∧ length slides = S (length headers))
  ∧ (∃ records,
       parse_slides s = Ok records
       ∧ length records = length headers
       ∧ records = imap record_of (drop 1 slides))
  ∧ (∀ preamble segs,
       s = segments_text preamble segs →
       ¬ contains (lit "**Slide ") preamble →
       Forall well_formed_segment segs →
       headers = segment_marker <$> segs
       ∧ parse_slides s = Ok (imap (λ i sg, record_of i (body sg)) segs)).
Proof.
  simpl. split_and!.
  - apply findall_SLIDE_MARKER_well_formed.
  - apply reassemble_split_findall, SLIDE_MARKER_no_group.
  - apply split_length, SLIDE_MARKER_no_group.
  - eexists. split_and!; [apply parse_slides_eq| |done].
    apply parse_slides_length, parse_slides_eq.
  - intros preamble segs -> Hpre Hsegs. split.
    + by destruct (split_findall_segments preamble segs Hpre Hsegs) as [_ ->].
    + by apply parse_slides_segments.
Qed.

(** The example of the specification, read as two markers and their
    bodies. *)
Lemma one_record_per_marker_witness :
  re.findall SLIDE_MARKER example_text = segment_marker <$> example_segments
  ∧ parse_slides example_text = Ok (imap (λ i sg, record_of i (body sg)) example_segments).
Proof.
  apply (one_record_per_marker example_text) with (preamble := []).
  - reflexivity.
  - by apply not_contains.
  - repeat constructor; try (by apply not_contains); by apply (bool_decide_unpack _).
Defined.

(** C5.  The parser returns for every text, whatever python-pptx does; a
    text in which the scan finds no marker gives no record, and what is
    built from it is what the two assignments of the title slide (lines
    204-205, which read nothing of the text) leave: the title slide alone
    when python-pptx takes the title and the date line, and otherwise the
    exception it raised for them. *)
Theorem parser_total (set_text : str → result ()) (s ppt_title today : str) :
  (∃ records,
     parse_slides s = Ok records
     ∧ length records = length (re.findall SLIDE_MARKER s))
  ∧ (re.findall SLIDE_MARKER s = [] →
     parse_slides s = Ok []
     ∧ build_presentation set_text ppt_title today s
       = (let* _ := set_text ppt_title in
          let* _ := set_text (lit "Generated on " ++ today) in
          Ok [title_slide ppt_title today])
     ∧ (set_text ppt_title = Ok () → set_text (lit "Generated on " ++ today) = Ok () →
        build_presentation set_text ppt_title today s = Ok [title_slide ppt_title today])).
Proof.
  split.
  { eexists. split; [apply parse_slides_eq|]. apply parse_slides_length, parse_slides_eq. }
  intros Hnone.
  assert (parse_slides s = Ok []) as Hparse.
  { pose proof (parse_slides_length s _ (parse_slides_eq s)) as Hlen.
    rewrite Hnone in Hlen. rewrite parse_slides_eq. f_equal.
    by apply nil_length_inv. }
  assert (build_presentation set_text ppt_title today s
          = (let* _ := set_text ppt_title in
             let* _ := set_text (lit "Generated on " ++ today) in
             Ok [title_slide ppt_title today])) as Hbuild.
  { rewrite build_presentation_parse, Hparse. unfold deck_texts.
    generalize (lit "Generated on " ++ today). intros date_line. simpl.
    destruct (set_text ppt_title) as [[]|e]; simpl; [|done].
    by destruct (set_text date_line) as [[]|e]. }
  split_and!; [done..|]. intros Ht Hd. by rewrite Hbuild, Ht, Hd.
Qed.

(** A text without marker. *)
Lemma parser_total_witness :
  parse_slides (lit "No slides today.") = Ok []
  ∧ build_presentation refuses_noncharacters (lit "Business Report") (lit "03 November 2026")
      (lit "No slides today.")
    = Ok [title_slide (lit "Business Report") (lit "03 November 2026")].
Proof.
  destruct (parser_total refuses_noncharacters (lit "No slides today.")
              (lit "Business Report") (lit "03 November 2026")) as [_ H].
  destruct H as (Hparse & _ & Hbuild); [vm_compute; reflexivity|].
  split; [exact Hparse|]. apply Hbuild; vm_compute; reflexivity.
Defined.

(** C6.  When the fragments are fewer than [i + 2], line 210 takes the
    empty string for the body of marker [i] and nothing is raised; the
    record is then the one of the empty body. *)
Theorem missing_fragment_empty_body (slides : list str) (i : nat) :
  length slides < i + 2 →
  slide_content slides i = Ok []
  ∧ slide_record slides i
    = Ok {| title := lit "Slide " ++ str_of_nat (i + 2); bullets := [] |}.
Proof.
  intros Hlen. rewrite slide_record_ok, slide_content_default.
  by rewrite lookup_ge_None_2 by lia.
Qed.

(** One fragment only, and the marker of index 0. *)
Lemma missing_fragment_empty_body_witness :
  slide_content [lit "preamble"] 0 = Ok []
  ∧ slide_record [lit "preamble"] 0 = Ok {| title := lit "Slide 2"; bullets := [] |}.
Proof. apply (missing_fragment_empty_body [lit "preamble"] 0). simpl. lia. Defined.

(** C7.  A body in which the title pattern finds nothing gives the title
    [Slide] followed by the index of the marker plus two. *)
Theorem title_fallback (slides : list str) (i : nat) (content : str) :
  slide_content slides i = Ok content →
  re.search TITLE_LINE content = None →
  ∃ r, slide_record slides i = Ok r ∧ title r = lit "Slide " ++ str_of_nat (i + 2).
Proof.
  intros Hc Hs. rewrite slide_content_default in Hc. injection Hc as Hc.
  rewrite slide_record_ok, Hc. eexists. split; [done|].
  unfold record_of. simpl. by rewrite Hs.
Qed.

(** A body with a bullet and no title line. *)
Lemma title_fallback_witness :
  ∃ r, slide_record [[]; lit "* only a bullet"] 0 = Ok r ∧ title r = lit "Slide 2".
Proof.
  apply (title_fallback [[]; lit "* only a bullet"] 0 (lit "* only a bullet"));
    vm_compute; reflexivity.
Defined.

(** C8.  [MAX_SLIDES] does not bound the records: a text with more markers
    than [MAX_SLIDES] gives a record for every one of them. *)
Theorem MAX_SLIDES_not_applied (s : str) :
  MAX_SLIDES < length (re.findall SLIDE_MARKER s) →
  ∃ records,
    parse_slides s = Ok records
    ∧ length records = length (re.findall SLIDE_MARKER s)
    ∧ MAX_SLIDES < length records.
Proof.
  intros Hmany. eexists. split; [apply parse_slides_eq|].
  rewrite (parse_slides_length s _ (parse_slides_eq s)). done.
Qed.

(** Eleven markers give eleven records. *)
Lemma MAX_SLIDES_not_applied_witness :
  ∃ records, parse_slides eleven_markers = Ok records
             ∧ length records = length (re.findall SLIDE_MARKER eleven_markers)
             ∧ MAX_SLIDES < length records.
Proof. apply (MAX_SLIDES_not_applied eleven_markers). vm_compute. lia. Defined.

(** C10.  Two runs of the parser on the same text return the same
    records. *)
Theorem parse_slides_deterministic (s1 s2 : str) :
  s1 = s2 →
  ∃ records, parse_slides s1 = Ok records ∧ parse_slides s2 = Ok records.
Proof. intros <-. rewrite parse_slides_eq. eauto. Qed.

(** The example of the specification, parsed twice. *)
Lemma parse_slides_deterministic_witness :
  ∃ records, parse_slides example_text = Ok records ∧ parse_slides example_text = Ok records.
Proof. apply (parse_slides_deterministic example_text example_text). reflexivity. Defined.

End parser.

(** ** The conversation turn *)

Section turn.
Variables (st : TabState) (ui : list Element) (prompt : str).
Hypothesis prompt_given : prompt ≠ [].

Let user_message : Message := {| role := USER; content := prompt |}.

(** When [send_message] raises, the error is shown, the user's message
    stays in the history, and line 86 reads [response], which was never
    bound. *)
Lemma chat_turn_send_raises e :
  send_message (chat_session st) prompt = Raise e →
  chat_turn (Some prompt) st ui
  = (Raise (UnboundLocalError (lit "response")),
     append_message st user_message,
     ui ++ [ChatMarkdown USER prompt]
        ++ [ChatMarkdown ASSISTANT (lit "Error: " ++ exn_str e)]).
Proof.
  intros Hsend. unfold chat_turn. destruct prompt as [|c p]; [done|].
  cbn [chat_session append_message]. rewrite Hsend. simpl.
  by rewrite <- app_assoc.
Qed.

(** When the remote call answers, the turn appends the user's message and
    then the answer. *)
Lemma chat_turn_answered response reply :
  send_message (chat_session st) prompt = Ok response →
  text response = Ok reply →
  chat_turn (Some prompt) st ui
  = (Ok (),
     append_message (append_message st user_message)
       {| role := ASSISTANT; content := reply |},
     ui ++ [ChatMarkdown USER prompt] ++ [ChatMarkdown ASSISTANT reply]).
Proof.
  intros Hsend Htext. unfold chat_turn. destruct prompt as [|c p]; [done|].
  cbn [chat_session append_message]. rewrite Hsend. simpl. rewrite Htext.
  by rewrite <- app_assoc.
Qed.

(** C4.  A turn whose remote call answers adds two messages to the
    history, the user's and then the assistant's, after the messages that
    were there, which it leaves as they were. *)
Theorem chat_turn_appends_two (chat : ChatSession) (response : Response) (reply : str) :
  chat_session st = Some chat →
  chat prompt = Ok response →
  text response = Ok reply →
  let '(outcome, st', _) := chat_turn (Some prompt) st ui in
  outcome = Ok ()
  ∧ messages st'
    = messages st ++ [user_message; {| role := ASSISTANT; content := reply |}]
  ∧ length (messages st') = length (messages st) + 2
  ∧ take (length (messages st)) (messages st') = messages st.
Proof.
  intros Hchat Hsend Htext.
  rewrite (chat_turn_answered response reply); [|by rewrite Hchat|done].
  simpl. rewrite <- app_assoc. simpl. split_and!; [done..| |].
  - rewrite length_app. simpl. lia.
  - by rewrite take_app_length.
Qed.

End turn.

(** A turn after the upload, with a session that answers. *)
Lemma chat_turn_appends_two_witness :
  let '(outcome, st', _) :=
    chat_turn (Some (lit "Summarise it")) (ready_tab answering_session) [] in
  outcome = Ok ()
  ∧ messages st'
    = messages (ready_tab answering_session)
        ++ [ {| role := USER; content := lit "Summarise it" |};
             {| role := ASSISTANT; content := lit "You asked: Summarise it" |} ]
  ∧ length (messages st') = length (messages (ready_tab answering_session)) + 2
  ∧ take (length (messages (ready_tab answering_session))) (messages st')
    = messages (ready_tab answering_session).
Proof.
  assert (Hp : lit "Summarise it" ≠ []) by (vm_compute; discriminate).
  apply (chat_turn_appends_two (ready_tab answering_session) [] (lit "Summarise it")
           Hp answering_session
           {| text := Ok (lit "You asked: Summarise it") |}
           (lit "You asked: Summarise it"));
    reflexivity.
Defined.

(** C3 (at a failing call).  The remote call raises: the error text is
    shown as the assistant's message, the history keeps what it had and the
    user's message, and the handler ends with [UnboundLocalError] instead of
    returning. *)
Theorem chat_turn_failure_escapes :
  chat_turn (Some (lit "Summarise it")) (ready_tab failing_session) []
  = (Raise (UnboundLocalError (lit "response")),
     append_message (ready_tab failing_session)
       {| role := USER; content := lit "Summarise it" |},
     [ ChatMarkdown USER (lit "Summarise it");
       ChatMarkdown ASSISTANT (lit "Error: 429 quota exceeded") ]).
Proof.
  assert (Hp : lit "Summarise it" ≠ []) by (vm_compute; discriminate).
  by rewrite (chat_turn_send_raises _ _ _ Hp (LibraryError (lit "429 quota exceeded"))).
Qed.

(** ** The text extraction *)

Section extraction.
Variables (plumber : PlumberDoc) (reader : PdfReaderDoc) (ui : list Element).

(** What [check_text] does with a text. *)
Lemma check_text_Ok text :
  check_text (Ok text) ui
  = match text with
    | [] => (Ok None, ui ++ [ErrorBanner (lit "Failed to extract text.")])
    | _ => (Ok (Some text), ui)
    end.
Proof. by destruct text. Qed.

(** An exception of the second library leaves the handler. *)
Lemma extract_text_fallback_raises text e e' :
  primary plumber = (text, Some e) → fallback reader text = Raise e' →
  extract_text plumber reader ui = (Raise e', ui).
Proof. intros Hp Hf. unfold extract_text. by rewrite Hp, Hf. Qed.

(** C9 (as the code has it).  An exception that leaves the handler is one
    the second library raised after the first had failed: no failure of the
    first library leaves it.  The text is the first library's when it raised
    nothing, else what the second library makes of the text gathered so far;
    and when the second library, where it is used, raises nothing, the
    handler raises nothing: with no text it shows an error and returns. *)
Theorem extract_text_contained :
  (∀ e, (extract_text plumber reader ui).1 = Raise e →
        ∃ t e0, primary plumber = (t, Some e0) ∧ fallback reader t = Raise e)
  ∧ ((∀ t e0, primary plumber = (t, Some e0) → ∃ text, fallback reader t = Ok text) →
     ∃ text,
       match primary plumber with
       | (t, None) => text = t
       | (t, Some _) => fallback reader t = Ok text
       end
       ∧ extract_text plumber reader ui
         = match text with
           | [] => (Ok None, ui ++ [ErrorBanner (lit "Failed to extract text.")])
           | _ => (Ok (Some text), ui)
           end).
Proof.
  unfold extract_text. destruct (primary plumber) as [t [e0|]] eqn:Hp; split.
  - intros e He. exists t, e0. split; [done|].
    destruct (fallback reader t) as [[|c text]|e']; by simplify_eq/=.
  - intros Hreader. destruct (Hreader t e0 eq_refl) as [text Hf]. exists text.
    rewrite Hf. split; [done|]. apply check_text_Ok.
  - intros e He. rewrite check_text_Ok in He. by destruct t.
  - intros _. exists t. split; [done|]. apply check_text_Ok.
Qed.

End extraction.

(** The first library raises and the second finds no text on two pages:
    the error is shown and the handler returns. *)
Lemma extract_text_contained_witness :
  extract_text (Raise (LibraryError (lit "No /Root object"))) (Ok [Ok []; Ok []]) []
  = (Ok None, [ErrorBanner (lit "Failed to extract text.")]).
Proof.
  destruct (proj2 (extract_text_contained
                     (Raise (LibraryError (lit "No /Root object"))) (Ok [Ok []; Ok []]) []))
    as (text & Hf & Hx).
  - intros t e0 [= <- _]. by exists [].
  - simpl in Hf. injection Hf as <-. exact Hx.
Defined.

(** C9 (as the specification has it): when the first library raises and
    the second one raises too, the exception of the second leaves the
    handler and no error is shown. *)
Lemma extraction_failure_escapes :
  extract_text (Raise (LibraryError (lit "No /Root object")))
    (Raise (LibraryError (lit "EOF marker not found"))) []
  = (Raise (LibraryError (lit "EOF marker not found")), []).
Proof. reflexivity. Qed.

(** * Further properties of the handlers *)

(** ** The text extraction, page by page *)

Section extraction_pages.

Lemma over_chunk_app_false text more :
  over_chunk (text ++ more) = false → over_chunk text = false.
Proof.
  unfold over_chunk. rewrite !N.ltb_ge, length_app. lia.
Qed.

Lemma plumber_loop_step i page_text pages text :
  plumber_loop i (Ok page_text :: pages) text
  = if over_chunk (text ++ page_block i page_text)
    then (text ++ page_block i page_text, None)
    else plumber_loop (S i) pages (text ++ page_block i page_text).
Proof.
  destruct page_text as [[|c t]|]; simpl; rewrite ?app_nil_r; done.
Qed.

Lemma plumber_loop_stops pages : ∀ i t0 text oe later,
  over_chunk t0 = false →
  plumber_loop i pages t0 = (text, oe) →
  over_chunk text = true ∨ is_Some oe →
  plumber_loop i (pages ++ later) t0 = (text, oe).
Proof.
  induction pages as [|[pt|e] pages IH]; intros i t0 text oe later Ht0 Hloop Hend.
  - simpl in Hloop. injection Hloop as <- <-.
    destruct Hend as [Hover|[? [=]]]. congruence.
  - rewrite <- app_comm_cons, plumber_loop_step. rewrite plumber_loop_step in Hloop.
    destruct (over_chunk (t0 ++ page_block i pt)) eqn:Hover; [done|]. by apply IH.
  - done.
Qed.

(** X1.  Pages that come after the page that took the text over
    [PROCESSING_CHUNK_SIZE], or after a page that raised, are not read:
    whatever they are, the handler does the same. *)
Theorem later_pages_not_read (pages later : list PlumberPage) (reader : PdfReaderDoc)
    (ui : list Element) (text : str) (oe : option exn) :
  primary (Ok pages) = (text, oe) →
  over_chunk text = true ∨ is_Some oe →
  extract_text (Ok (pages ++ later)) reader ui = extract_text (Ok pages) reader ui.
Proof.
  intros Hp Hend. unfold extract_text.
  replace (primary (Ok (pages ++ later))) with (primary (Ok pages)); [done|].
  simpl in *. rewrite Hp. symmetry. by apply plumber_loop_stops.
Qed.

(** A page of 15000 characters takes the text over the size: the page after
    it, which would raise, is not read. *)
Lemma later_pages_not_read_witness :
  extract_text
    (Ok ([Ok (Some long_page)] ++ [Raise (LibraryError (lit "bad page"))]))
    (Ok []) []
  = extract_text (Ok [Ok (Some long_page)]) (Ok []) [].
Proof.
  apply (later_pages_not_read [Ok (Some long_page)] _ _ _
           (page_block 0 (Some long_page)) None).
  - vm_compute. reflexivity.
  - left. vm_compute. reflexivity.
Defined.

Lemma plumber_loop_labelled (pages : list (option str)) : ∀ i t0,
  over_chunk (t0 ++ concat (imap (λ j, page_block (i + j)) pages)) = false →
  plumber_loop i (Ok <$> pages) t0
  = (t0 ++ concat (imap (λ j, page_block (i + j)) pages), None).
Proof.
  induction pages as [|pt pages IH]; intros i t0 Hfit.
  - simpl. by rewrite app_nil_r.
  - rewrite fmap_cons, plumber_loop_step.
    rewrite imap_cons in *. simpl concat in *. rewrite Nat.add_0_r, app_assoc in *.
    rewrite (over_chunk_app_false _ _ Hfit).
    rewrite (imap_ext _ (λ j, page_block (S i + j))) in *
      by (intros; simpl; f_equal; lia).
    by apply IH.
Qed.

(** X2.  When the labelled text of a document fits in [PROCESSING_CHUNK_SIZE]
    and no page raises, the text is that of the pages in their order, each
    page with text under the label of its number in the document: an empty
    page adds nothing and is still counted. *)
Theorem pages_labelled (pages : list (option str)) :
  over_chunk (concat (imap page_block pages)) = false →
  primary (Ok (Ok <$> pages)) = (concat (imap page_block pages), None).
Proof. intros Hfit. apply (plumber_loop_labelled pages 0 []). exact Hfit. Qed.

(** An empty second page: the third page is labelled [Page 3]. *)
Lemma pages_labelled_witness :
  primary (Ok [Ok (Some (lit "one")); Ok None; Ok (Some (lit "three"))])
  = ([NEWLINE; NEWLINE] ++ lit "[Page 1]" ++ [NEWLINE] ++ lit "one"
       ++ [NEWLINE; NEWLINE] ++ lit "[Page 3]" ++ [NEWLINE] ++ lit "three", None).
Proof.
  apply (pages_labelled [Some (lit "one"); None; Some (lit "three")]).
  vm_compute. reflexivity.
Defined.

Lemma plumber_loop_overshoot pages : ∀ i t0 text oe,
  over_chunk t0 = false →
  plumber_loop i pages t0 = (text, oe) →
  over_chunk text = true →
  ∃ k texts t,
    take k pages = Ok <$> texts
    ∧ pages !! k = Some (Ok (Some t))
    ∧ oe = None
    ∧ text = t0 ++ concat (imap (λ j, page_block (i + j)) texts) ++ page_block (i + k) (Some t)
    ∧ over_chunk (t0 ++ concat (imap (λ j, page_block (i + j)) texts)) = false.
Proof.
  induction pages as [|[pt|e] pages IH]; intros i t0 text oe Ht0 Hloop Hover.
  - simpl in Hloop. injection Hloop as <- <-. congruence.
  - rewrite plumber_loop_step in Hloop.
    destruct (over_chunk (t0 ++ page_block i pt)) eqn:Hstep.
    + injection Hloop as <- <-. destruct pt as [t|].
      * exists 0, [], t. rewrite Nat.add_0_r. simpl. by rewrite app_nil_r.
      * simpl in Hstep. rewrite app_nil_r in Hstep. congruence.
    + destruct (IH (S i) _ _ _ Hstep Hloop Hover) as (k & texts & t & Htake & Hk & -> & -> & Hb).
      exists (S k), (pt :: texts), t. rewrite imap_cons. simpl concat.
      rewrite Nat.add_0_r. simpl take. rewrite Htake.
      replace (i + S k) with (S i + k) by lia.
      rewrite (imap_ext (λ j, page_block (i + S j)) (λ j, page_block (S i + j)))
        by (intros; f_equal; lia).
      rewrite <- !app_assoc in *. done.
  - simpl in Hloop. injection Hloop as <- <-. congruence.
Qed.

(** X3.  The text of the first library goes over [PROCESSING_CHUNK_SIZE] by
    at most one page.  When it is over the size, the loop ended without
    exception at a page with text, the page of some index [k], which is
    the last one read: the text is the blocks of the pages before it, which
    are within the size, and then the block of that page. *)
Theorem text_over_by_one_page (pages : list PlumberPage) (text : str) (oe : option exn) :
  primary (Ok pages) = (text, oe) →
  over_chunk text = true →
  ∃ k texts t,
    take k pages = Ok <$> texts
    ∧ pages !! k = Some (Ok (Some t))
    ∧ oe = None
    ∧ text = concat (imap page_block texts) ++ page_block k (Some t)
    ∧ (N.of_nat (length (concat (imap page_block texts))) ≤ PROCESSING_CHUNK_SIZE)%N.
Proof.
  intros Hp Hover.
  destruct (plumber_loop_overshoot pages 0 [] text oe eq_refl Hp Hover)
    as (k & texts & t & Htake & Hk & -> & -> & Hb).
  exists k, texts, t. split_and!; [done..|]. by apply N.ltb_ge.
Qed.

(** The second page takes the text over the size: the third is not in the
    text. *)
Lemma text_over_by_one_page_witness :
  ∃ k texts t,
    take k [Ok (Some (lit "intro")); Ok (Some long_page); Ok (Some (lit "end"))]
    = Ok <$> texts
    ∧ [Ok (Some (lit "intro")); Ok (Some long_page); Ok (Some (lit "end"))] !! k
      = Some (Ok (Some t))
    ∧ (None : option exn) = None
    ∧ page_block 0 (Some (lit "intro")) ++ page_block 1 (Some long_page)
      = concat (imap page_block texts) ++ page_block k (Some t)
    ∧ (N.of_nat (length (concat (imap page_block texts))) ≤ PROCESSING_CHUNK_SIZE)%N.
Proof.
  apply (text_over_by_one_page
           [Ok (Some (lit "intro")); Ok (Some long_page); Ok (Some (lit "end"))]
           _ None); vm_compute; reflexivity.
Defined.

Lemma reader_loop_inv pages : ∀ t text,
  reader_loop pages t = Ok text →
  ∃ texts,
    take (length texts) pages = Ok <$> texts
    ∧ length texts ≤ length pages
    ∧ text = t ++ concat texts
    ∧ (∀ j, 0 < j < length texts → over_chunk (t ++ concat (take j texts)) = false)
    ∧ (length texts = length pages ∨ over_chunk text = true).
Proof.
  induction pages as [|[pt|e] pages IH]; intros t text Hloop; simpl in Hloop.
  - injection Hloop as <-. exists []. simpl. rewrite app_nil_r.
    split_and!; auto with lia.
  - destruct (over_chunk (t ++ pt)) eqn:Hover.
    + injection Hloop as <-. exists [pt]. simpl. rewrite app_nil_r.
      split_and!; auto with lia.
    + apply IH in Hloop as (texts & Htake & Hlen & -> & Hbefore & Hend).
      exists (pt :: texts). simpl. rewrite Htake, <- app_assoc.
      split_and!; [done|lia|done| |].
      * intros [|[|j]] Hj; [lia| |].
        -- simpl. by rewrite ?take_0, app_nil_r.
        -- simpl. rewrite app_assoc. apply Hbefore. simpl in Hj. lia.
      * destruct Hend as [->|Hend]; [by left|right; by rewrite <- app_assoc in Hend].
  - discriminate.
Qed.

(** X4.  When the first library raised after it had gathered some text, the
    second library starts again at its first page and its text is put after
    what was gathered: the text of the handler is the gathered text, then
    the texts of the first pages of the second library with nothing between
    them.  The pages read are all of them, or those up to the first page
    after which the text was over [PROCESSING_CHUNK_SIZE]: after none of
    the pages read before the last was it over the size. *)
Theorem fallback_appends_to_gathered (plumber : PlumberDoc) (pages : list PdfReaderPage)
    (ui : list Element) (gathered text : str) (e : exn) :
  primary plumber = (gathered, Some e) →
  (extract_text plumber (Ok pages) ui).1 = Ok (Some text) →
  ∃ texts,
    take (length texts) pages = Ok <$> texts
    ∧ length texts ≤ length pages
    ∧ text = gathered ++ concat texts
    ∧ (∀ j, 0 < j < length texts → over_chunk (gathered ++ concat (take j texts)) = false)
    ∧ (length texts = length pages ∨ over_chunk text = true).
Proof.
  intros Hp. unfold extract_text. rewrite Hp. simpl.
  destruct (reader_loop pages gathered) as [[|c t]|e'] eqn:Hloop; simpl; [done| |done].
  intros [= <-]. by apply reader_loop_inv.
Qed.

(** The first library reads one page and fails on the second; the second
    library reads both. *)
Lemma fallback_appends_to_gathered_witness :
  ∃ texts,
    take (length texts) [Ok (lit "one"); Ok (lit "two")] = Ok <$> texts
    ∧ length texts ≤ 2
    ∧ page_block 0 (Some (lit "one")) ++ lit "onetwo"
      = page_block 0 (Some (lit "one")) ++ concat texts
    ∧ (∀ j, 0 < j < length texts →
            over_chunk (page_block 0 (Some (lit "one")) ++ concat (take j texts)) = false)
    ∧ (length texts = 2
       ∨ over_chunk (page_block 0 (Some (lit "one")) ++ lit "onetwo") = true).
Proof.
  apply (fallback_appends_to_gathered
           (Ok [Ok (Some (lit "one")); Raise (LibraryError (lit "bad page"))])
           [Ok (lit "one"); Ok (lit "two")] []
           (page_block 0 (Some (lit "one"))) _ (LibraryError (lit "bad page")));
    vm_compute; reflexivity.
Defined.

End extraction_pages.

(** ** The prompt, the presentation and the download *)

Section deck.

(** X5.  The prompt holds no more of the document than its first
    [PROCESSING_CHUNK_SIZE] characters: it is the prompt of that prefix, and
    its length is that of the fixed text (361 characters), of the title,
    twice, and of the prefix. *)
Theorem build_prompt_budget (ppt_title document : str) :
  build_prompt ppt_title document
  = build_prompt ppt_title (take (N.to_nat PROCESSING_CHUNK_SIZE) document)
  ∧ length (build_prompt ppt_title document)
    = 361 + 2 * length ppt_title + length document `min` N.to_nat PROCESSING_CHUNK_SIZE.
Proof.
  split.
  - unfold build_prompt. by rewrite take_take, Nat.min_id.
  - unfold build_prompt. rewrite !length_app, length_take.
    vm_compute (length (lit _)). simpl length. lia.
Qed.

(** X6.  The name of the download has no space: it is the title with every
    space replaced by an underscore, the other characters in their places,
    and [.pptx] after it, for every title. *)
Theorem download_name_no_space (ppt_title : str) :
  (chr " " ∉ download_name ppt_title)
  ∧ length (download_name ppt_title) = length ppt_title + 5
  ∧ (∀ i c, ppt_title !! i = Some c →
            download_name ppt_title !! i
            = Some (if (c =? chr " ")%N then chr "_" else c))
  ∧ drop (length ppt_title) (download_name ppt_title) = lit ".pptx"
  ∧ (chr " " ∉ ppt_title → download_name ppt_title = ppt_title ++ lit ".pptx").
Proof.
  unfold download_name, replace_char. split_and!.
  - rewrite elem_of_app, list_elem_of_fmap. intros [(c & Hc & _)|Hext].
    + destruct (c =? chr " ")%N eqn:Heq; [discriminate|].
      apply N.eqb_neq in Heq. congruence.
    + vm_compute in Hext. by repeat (apply elem_of_cons in Hext as [?|Hext]; [done|]);
        apply elem_of_nil in Hext.
  - rewrite length_app, length_fmap. reflexivity.
  - intros i c Hi. rewrite lookup_app_l by (rewrite length_fmap; by eapply lookup_lt_Some).
    by rewrite list_lookup_fmap, Hi.
  - rewrite <- (length_fmap (λ c, if (c =? chr " ")%N then chr "_" else c) ppt_title).
    by rewrite drop_app_length.
  - intros Hno. f_equal. induction ppt_title as [|c t IH]; [done|].
    apply not_elem_of_cons in Hno as [Hc Hno]. rewrite fmap_cons, IH by done.
    destruct (c =? chr " ")%N eqn:Heq; [|done]. apply N.eqb_eq in Heq. congruence.
Qed.

(** X7.  What is built is told by the texts assigned, in the order of
    lines 204 and 205 and then, for each record of the parser, of lines 215
    and 220.  When python-pptx takes them all, the presentation has the
    title slide and then one slide per record, in their order: the slide of
    a record has layout 1, its title, and after the empty paragraph one
    paragraph per bullet, each in Calibri, 18 points, black and aligned
    left.  Otherwise nothing is built: the exception of the first text that
    python-pptx refused leaves the handler. *)
Theorem presentation_shape (set_text : str → result ())
    (ppt_title today slide_structure : str) :
  ∃ records,
    parse_slides slide_structure = Ok records
    ∧ match build_presentation set_text ppt_title today slide_structure with
      | Ok prs =>
          Forall (λ t, set_text t = Ok ()) (deck_texts ppt_title today records)
          ∧ length prs = S (length (re.findall SLIDE_MARKER slide_structure))
          ∧ prs !! 0 = Some (title_slide ppt_title today)
          ∧ Forall2
              (λ (r : SlideRecord) (sl : Slide),
                 layout sl = 1 ∧ shapes_title sl = title r
                 ∧ para_text <$> paragraphs sl = [] :: bullets r
                 ∧ Forall (λ para, font_name para = Some PPT_FONT
                                   ∧ font_size para = Some 18
                                   ∧ font_rgb para = Some (0, 0, 0)%N
                                   ∧ left_aligned para = true)
                     (drop 1 (paragraphs sl)))
              records (drop 1 prs)
      | Raise e =>
          ∃ before t after,
            deck_texts ppt_title today records = before ++ t :: after
            ∧ Forall (λ t', set_text t' = Ok ()) before
            ∧ set_text t = Raise e
      end.
Proof.
  eexists. split; [apply parse_slides_eq|].
  rewrite build_presentation_parse, parse_slides_eq. cbn [bind].
  set (records := imap record_of _).
  destruct (for_each set_text (deck_texts ppt_title today records)) as [[]|e] eqn:Hf;
    cbn [bind]; [|by apply for_each_Raise].
  apply for_each_Ok in Hf. split_and!.
  - done.
  - simpl. rewrite length_fmap. f_equal.
    apply parse_slides_length, parse_slides_eq.
  - done.
  - simpl. rewrite drop_0. apply Forall2_fmap_r, Forall_Forall2_diag, Forall_forall.
    intros r _. simpl. split_and!; [done..| |].
    + by rewrite <- list_fmap_compose, (list_fmap_ext _ id (bullets r)), list_fmap_id.
    + rewrite drop_0. apply Forall_fmap, Forall_forall. by intros b _.
Qed.

(** A bullet that holds U+FFFE, refused at line 220: the exception leaves
    and no presentation is built. *)
Lemma refused_bullet_example :
  build_presentation refuses_noncharacters (lit "Business Report") (lit "03 November 2026")
    (lit "**Slide 1: X**" ++ [NEWLINE] ++ lit "* a" ++ [0xFFFE%N] ++ lit "b")
  = Raise (LibraryError (lit "All strings must be XML compatible: Unicode or ASCII, no NULL bytes or control characters")).
Proof. vm_compute. reflexivity. Qed.

(** X8.  A download is offered only in a run in which both buttons returned
    true; it then carries the presentation built from the model's answer to
    the prompt of the extracted text, under the name made from the title,
    and the run ends without an exception. *)
Theorem download_needs_both_buttons (plumber : PlumberDoc) (reader : PdfReaderDoc)
    (ppt_title today : str) (generate_slides generate_powerpoint : bool)
    (generate_content : str → result Response) (set_text : str → result ())
    (name : str) (data : Presentation) :
  let run :=
    ppt_from_pdf (Some (plumber, reader)) ppt_title generate_slides generate_powerpoint
      generate_content set_text today in
  DownloadButton name data ∈ run.2 →
  generate_slides = true ∧ generate_powerpoint = true
  ∧ run.1 = Ok ()
  ∧ name = download_name ppt_title
  ∧ ∃ document response slide_structure,
      (extract_text plumber reader []).1 = Ok (Some document)
      ∧ generate_content (build_prompt ppt_title document) = Ok response
      ∧ text response = Ok slide_structure
      ∧ build_presentation set_text ppt_title today slide_structure = Ok data.
Proof.
  simpl. unfold ppt_from_pdf.
  assert (Hshown : ∀ ui : list Element, DownloadButton name data ∉ Shown <$> ui).
  { intros ui (e & [=] & _)%list_elem_of_fmap. }
  destruct (extract_text plumber reader []) as [[[document|]|e] ui] eqn:Hx; simpl;
    try (intros Hin; by apply Hshown in Hin).
  destruct generate_slides; [|intros Hin; by apply Hshown in Hin].
  destruct (generate_content _) as [response|e] eqn:Hg; simpl;
    [|intros Hin; by apply Hshown in Hin].
  destruct (text response) as [slide_structure|e] eqn:Ht;
    [|intros Hin; by apply Hshown in Hin].
  assert (Hcode : DownloadButton name data ∉ (Shown <$> ui) ++ [CodeBlock slide_structure]).
  { intros [Hin|Hin]%elem_of_app; [by apply Hshown in Hin|].
    by apply list_elem_of_singleton in Hin. }
  destruct generate_powerpoint; [|intros Hin; by apply Hcode in Hin].
  destruct (build_presentation set_text ppt_title today slide_structure) as [prs|e] eqn:Hb;
    [|intros Hin; by apply Hcode in Hin].
  simpl. intros [Hin|Hin]%elem_of_app; [by apply Hcode in Hin|].
  apply list_elem_of_singleton in Hin as [= -> ->].
  split_and!; [done..|]. exists document, response, slide_structure. by rewrite Ht.
Qed.

(** One page of text, the example of the specification as the model's
    answer, both buttons true. *)
Lemma download_needs_both_buttons_witness :
  true = true ∧ true = true
  ∧ (ppt_from_pdf (Some (Ok [Ok (Some (lit "Quarterly figures"))], Ok []))
       (lit "Business Report") true true example_model refuses_noncharacters
       (lit "03 November 2026")).1 = Ok ()
  ∧ lit "Business_Report.pptx" = download_name (lit "Business Report")
  ∧ ∃ document response slide_structure,
      (extract_text (Ok [Ok (Some (lit "Quarterly figures"))]) (Ok []) []).1
      = Ok (Some document)
      ∧ example_model (build_prompt (lit "Business Report") document) = Ok response
      ∧ text response = Ok slide_structure
      ∧ build_presentation refuses_noncharacters (lit "Business Report")
          (lit "03 November 2026") slide_structure
        = Ok example_deck.
Proof.
  apply (download_needs_both_buttons
           (Ok [Ok (Some (lit "Quarterly figures"))]) (Ok [])
           (lit "Business Report") (lit "03 November 2026") true true example_model
           refuses_noncharacters (lit "Business_Report.pptx") example_deck).
  apply (list_elem_of_lookup_2 _ 1). vm_compute. reflexivity.
Defined.

End deck.

(** ** The upload and the runs of the chat handlers *)

Section upload.
Variable remote : Remote.

(** X9.  The poll ends at the first file that is not [PROCESSING], after as many
    polls as there were files before it, whatever state that file has. *)
Theorem wait_ready_first_ready (files : nat → RemoteFile) (k : nat) :
  (∀ j, j < k →
        is_processing (files j) = true
        ∧ get_file remote j (file_name (files j)) = Ok (files (S j))) →
  is_processing (files k) = false →
  ∀ fuel, k ≤ fuel → wait_ready fuel remote 0 (files 0) = Some (Ok (files k, k)).
Proof.
  intros Hpolls Hready.
  assert (Hfrom : ∀ d i fuel, i + d = k → d ≤ fuel →
            wait_ready fuel remote i (files i) = Some (Ok (files k, k))).
  { induction d as [|d IH]; intros i fuel Hi Hfuel.
    - assert (i = k) as -> by lia. destruct fuel; simpl; by rewrite Hready.
    - destruct fuel as [|fuel]; [lia|]. destruct (Hpolls i) as [Hp Hg]; [lia|].
      simpl. rewrite Hp, Hg. apply IH; lia. }
  intros fuel Hfuel. by apply (Hfrom k 0).
Qed.

(** While every answer is a file that is [PROCESSING], the poll does not
    end, whatever the number of polls allowed. *)
Lemma wait_ready_never_ready (file : RemoteFile) :
  is_processing file = true →
  (∀ j name, ∃ f, get_file remote j name = Ok f ∧ is_processing f = true) →
  ∀ fuel k, wait_ready fuel remote k file = None.
Proof.
  intros Hfile Hstuck fuel. revert file Hfile.
  induction fuel as [|fuel IH]; intros file Hfile k; simpl; rewrite Hfile; [done|].
  destruct (Hstuck k (file_name file)) as (f & -> & Hf). by apply IH.
Qed.

Context {A : Type}.
Variables (greeting : str) (fuel : nat) (uploaded_file : option (result A)).
Variables (st : TabState) (ui : list Element).

(** X10.  Unless the upload step ends in a rerun, it leaves the state of the
    tab as it was, so that the next run tries the upload again.  A step that
    was skipped adds nothing to the page.  A step that caught an exception
    adds one error banner and nothing else, and the banner is the text of
    the exception that ended the attempt: that of the step before the
    upload, or of [upload_file], or of the poll, or of [start_chat] for the
    file the poll ended on. *)
Theorem upload_step_keeps_state (a : option A) (st' : TabState) (ui' : list Element)
    (outcome : UploadEnd) :
  upload_step greeting fuel uploaded_file remote st ui = Some (outcome, a, st', ui') →
  outcome ≠ Rerun →
  st' = st ∧ a = None
  ∧ match outcome with
    | Caught =>
        file_processed st = false
        ∧ ∃ e,
            ui' = ui ++ [ErrorBanner (exn_str e)]
            ∧ (uploaded_file = Some (Raise e)
               ∨ ∃ x,
                   uploaded_file = Some (Ok x)
                   ∧ (upload_file remote = Raise e
                      ∨ ∃ file,
                          upload_file remote = Ok file
                          ∧ (wait_ready fuel remote 0 file = Some (Raise e)
                             ∨ ∃ file' k,
                                 wait_ready fuel remote 0 file = Some (Ok (file', k))
                                 ∧ start_chat remote file' = Raise e)))
    | _ => ui' = ui ∧ (uploaded_file = None ∨ file_processed st = true)
    end.
Proof.
  unfold upload_step. intros Hstep Hout.
  destruct uploaded_file as [prepare|]; [|simplify_eq; auto].
  destruct (file_processed st) eqn:Hdone; [simplify_eq; auto|].
  destruct prepare as [x|e]; [|simplify_eq; eauto 10].
  destruct (upload_file remote) as [file|e] eqn:Hup; [|simplify_eq; eauto 10].
  destruct (wait_ready fuel remote 0 file) as [[[file' k]|e]|] eqn:Hwait;
    [|simplify_eq; eauto 15|done].
  destruct (start_chat remote file') as [chat|e] eqn:Hchat; [by simplify_eq|].
  simplify_eq. split_and!; [done..|]. exists e. split; [done|].
  right. exists x. split; [done|]. right. exists file. split; [done|]. right. eauto.
Qed.

(** What a step that ends in a rerun leaves for the next run. *)
Lemma upload_step_rerun_state (a : option A) (st' : TabState) (ui' : list Element) :
  upload_step greeting fuel uploaded_file remote st ui = Some (Rerun, a, st', ui') →
  uploaded_file = (Ok <$> a) ∧ ui' = ui
  ∧ messages st' = [ {| role := ASSISTANT; content := greeting |} ]
  ∧ file_processed st' = true.
Proof.
  unfold upload_step. intros Hstep.
  destruct uploaded_file as [prepare|]; [|by simplify_eq].
  destruct (file_processed st); [by simplify_eq|].
  destruct prepare as [x|e]; [|by simplify_eq].
  destruct (upload_file remote) as [file|e]; [|by simplify_eq].
  destruct (wait_ready fuel remote 0 file) as [[[file' k]|e]|]; [|by simplify_eq|done].
  destruct (start_chat remote file') as [chat|e]; [|by simplify_eq].
  by simplify_eq.
Qed.

(** The poll ends only on a file that is not [PROCESSING]. *)
Lemma wait_ready_not_processing : ∀ n i file file' k,
  wait_ready n remote i file = Some (Ok (file', k)) → is_processing file' = false.
Proof.
  induction n as [|n IH]; intros i file file' k; simpl.
  - destruct (is_processing file) eqn:Hp; [done|]. by intros [= <- _].
  - destruct (is_processing file) eqn:Hp; [|by intros [= <- _]].
    destruct (get_file remote i (file_name file)); [|done]. apply IH.
Qed.

(** X11.  A step that ends in a rerun has made the upload for a tab that
    had none, and added nothing to the page.  The state it leaves is told
    by the service: the history is the greeting alone, whatever it held
    before, and the file and the chat session are the file the poll of the
    uploaded file ended on, which is not [PROCESSING] but need not be
    [ACTIVE], and the session that [start_chat] gave for that file. *)
Theorem upload_step_rerun (a : option A) (st' : TabState) (ui' : list Element) :
  upload_step greeting fuel uploaded_file remote st ui = Some (Rerun, a, st', ui') →
  file_processed st = false
  ∧ ui' = ui
  ∧ ∃ x uploaded file k chat,
      uploaded_file = Some (Ok x) ∧ a = Some x
      ∧ upload_file remote = Ok uploaded
      ∧ wait_ready fuel remote 0 uploaded = Some (Ok (file, k))
      ∧ is_processing file = false
      ∧ start_chat remote file = Ok chat
      ∧ st' = {| messages := [ {| role := ASSISTANT; content := greeting |} ];
                 file_processed := true;
                 gemini_file := Some (file_name file);
                 chat_session := Some chat |}.
Proof.
  unfold upload_step. intros Hstep.
  destruct uploaded_file as [prepare|]; [|by simplify_eq].
  destruct (file_processed st) eqn:Hdone; [by simplify_eq|].
  destruct prepare as [x|e]; [|by simplify_eq].
  destruct (upload_file remote) as [uploaded|e]; [|by simplify_eq].
  destruct (wait_ready fuel remote 0 uploaded) as [[[file k]|e]|] eqn:Hwait;
    [|by simplify_eq|done].
  destruct (start_chat remote file) as [chat|e] eqn:Hchat; [|by simplify_eq].
  simplify_eq. split_and!; [done..|].
  exists x, uploaded, file, k, chat. split_and!; try done.
  by eapply wait_ready_not_processing.
Qed.

End upload.

(** The file is ready at the third poll. *)
Lemma wait_ready_first_ready_witness :
  wait_ready 5 remote_slow 0 processing_file
  = Some (Ok ({| file_name := lit "files/abc"; file_state := ACTIVE |}, 3)).
Proof.
  apply (wait_ready_first_ready remote_slow
           (λ j, {| file_name := lit "files/abc";
                    file_state := if 3 <=? j then ACTIVE else PROCESSING |}) 3).
  - intros j Hj. do 3 (destruct j as [|j]; [by vm_compute|]). lia.
  - reflexivity.
  - lia.
Defined.

(** The service refuses the upload: the banner tells it and the tab is as
    before. *)
Lemma upload_step_keeps_state_witness :
  initial_tab = initial_tab ∧ (None : option ()) = None
  ∧ file_processed initial_tab = false
    ∧ ∃ e,
        [ErrorBanner (lit "503 unavailable")] = [] ++ [ErrorBanner (exn_str e)]
        ∧ (Some (Ok ()) = Some (Raise e)
           ∨ ∃ x,
               Some (Ok ()) = Some (Ok x)
               ∧ (upload_file remote_down = Raise e
                  ∨ ∃ file,
                      upload_file remote_down = Ok file
                      ∧ (wait_ready 1 remote_down 0 file = Some (Raise e)
                         ∨ ∃ file' k,
                             wait_ready 1 remote_down 0 file = Some (Ok (file', k))
                             ∧ start_chat remote_down file' = Raise e))).
Proof.
  apply (upload_step_keeps_state remote_down PDF_GREETING 1 (Some (Ok ())) initial_tab []
           None initial_tab [ErrorBanner (lit "503 unavailable")] Caught);
    [reflexivity|discriminate].
Defined.

(** The upload of a file that the service reports as [FAILED]. *)
Lemma upload_step_rerun_witness :
  file_processed initial_tab = false
  ∧ ([] : list Element) = []
  ∧ ∃ x uploaded file k chat,
      Some (Ok ()) = Some (Ok x) ∧ Some () = Some x
      ∧ upload_file remote_failed = Ok uploaded
      ∧ wait_ready 0 remote_failed 0 uploaded = Some (Ok (file, k))
      ∧ is_processing file = false
      ∧ start_chat remote_failed file = Ok chat
      ∧ failed_tab = {| messages := [ {| role := ASSISTANT; content := PDF_GREETING |} ];
                        file_processed := true;
                        gemini_file := Some (file_name file);
                        chat_session := Some chat |}.
Proof.
  apply (upload_step_rerun remote_failed PDF_GREETING 0 (Some (Ok ())) initial_tab []
           (Some ()) failed_tab []).
  reflexivity.
Defined.

(** With the upload made, or no file in the uploader, the step does
    nothing. *)
Lemma upload_step_skipped {A} greeting fuel (uploaded_file : option (result A)) remote st ui :
  file_processed st = true ∨ uploaded_file = None →
  upload_step greeting fuel uploaded_file remote st ui = Some (Skipped, None, st, ui).
Proof.
  unfold upload_step. intros [Hdone| ->]; [|done].
  destruct uploaded_file; [|done]. by rewrite Hdone.
Qed.

Lemma replay_app h1 h2 : replay (h1 ++ h2) = replay h1 ++ replay h2.
Proof. apply fmap_app. Qed.

Section runs.
Variables (fuel : nat) (remote : Remote).

(** X12.  While the service keeps the uploaded file [PROCESSING], the run of the
    handler does not end: neither the upload nor an error is ever shown. *)
Theorem pdf_chat_waits_forever (session : option TabState) (prompt : option str)
    (file : RemoteFile) :
  file_processed (default initial_tab session) = false →
  upload_file remote = Ok file →
  is_processing file = true →
  (∀ j name, ∃ f, get_file remote j name = Ok f ∧ is_processing f = true) →
  pdf_chat fuel session (Some (Ok ())) remote prompt = None.
Proof.
  intros Hnew Hup Hfile Hstuck. unfold pdf_chat, upload_step.
  by rewrite Hnew, Hup, (wait_ready_never_ready remote file Hfile Hstuck).
Qed.

(** X13.  The run that follows the rerun of a successful upload shows the
    greeting and nothing else, asks nothing of the service and leaves the
    state as the upload made it. *)
Theorem pdf_chat_after_upload (session : option TabState) (uploaded_file : option (result ()))
    (prompt : option str) (st' : TabState) (ui' : list Element) :
  pdf_chat fuel session uploaded_file remote prompt = Some (Rerunning, st', ui') →
  ui' = []
  ∧ ∀ fuel2 remote2,
      pdf_chat fuel2 (Some st') uploaded_file remote2 None
      = Some (Finished, st', [ChatMarkdown ASSISTANT PDF_GREETING]).
Proof.
  unfold pdf_chat.
  destruct (upload_step PDF_GREETING fuel uploaded_file remote _ [])
    as [[[[outcome a] st1] ui1]|] eqn:Hstep; [|done].
  destruct outcome.
  - by destruct (chat_turn _ _ _) as [[[?|?] ?] ?].
  - intros [= <- <-].
    apply upload_step_rerun_state in Hstep as (_ & -> & Hm & Hdone).
    split; [done|]. intros fuel2 remote2. simpl default.
    rewrite upload_step_skipped by (by left). by rewrite Hm.
  - by destruct (chat_turn _ _ _) as [[[?|?] ?] ?].
Qed.

(** X14.  A run that made no upload and ended without exception is drawn again
    as it was by the next run: the history the next run replays is what the
    user saw, the new question and its answer included. *)
Theorem pdf_chat_redraws (st : TabState) (uploaded_file : option (result ()))
    (prompt : option str) (st' : TabState) (ui' : list Element) :
  file_processed st = true ∨ uploaded_file = None →
  pdf_chat fuel (Some st) uploaded_file remote prompt = Some (Finished, st', ui') →
  ∀ fuel2 remote2,
    pdf_chat fuel2 (Some st') uploaded_file remote2 None = Some (Finished, st', ui').
Proof.
  intros Hskip. unfold pdf_chat. simpl default.
  rewrite upload_step_skipped by done. simpl.
  assert (Hnext : ∀ st2 fuel2 remote2,
            file_processed st2 = file_processed st →
            upload_step PDF_GREETING fuel2 uploaded_file remote2 st2 []
            = Some (Skipped, None, st2, [])).
  { intros st2 fuel2 remote2 Hsame. apply upload_step_skipped.
    destruct Hskip as [Hdone|Hnone]; [left; congruence|by right]. }
  destruct prompt as [[|c p]|].
  - intros [= <- <-] fuel2 remote2. by rewrite Hnext.
  - simpl. destruct (send_message (chat_session st) (c :: p)) as [r|e]; simpl; [|done].
    destruct (text r) as [t|e]; [|done].
    intros [= <- <-] fuel2 remote2. rewrite Hnext by reflexivity. simpl.
    rewrite !replay_app, <- !app_assoc. reflexivity.
  - intros [= <- <-] fuel2 remote2. by rewrite Hnext.
Qed.

(** X15.  A question asked before any upload was made: the tab has no chat
    session, the attribute error of [None] is shown in the chat as the
    answer, and the run ends in [UnboundLocalError]; the question stays in
    the history, without answer. *)
Theorem pdf_chat_question_before_upload (session : option TabState) (prompt : str) :
  chat_session (default initial_tab session) = None →
  prompt ≠ [] →
  pdf_chat fuel session None remote (Some prompt)
  = Some (Raised (UnboundLocalError (lit "response")),
          append_message (default initial_tab session) {| role := USER; content := prompt |},
          replay (messages (default initial_tab session))
            ++ [ ChatMarkdown USER prompt;
                 ChatMarkdown ASSISTANT
                   (lit "Error: 'NoneType' object has no attribute 'send_message'") ]).
Proof.
  intros Hnone Hprompt. unfold pdf_chat.
  rewrite upload_step_skipped by (by right). cbv beta iota zeta.
  rewrite (chat_turn_send_raises _ _ _ Hprompt
             (AttributeError (lit "'NoneType' object has no attribute 'send_message'")))
    by (by rewrite Hnone).
  reflexivity.
Qed.

(** X16.  The run of [csv_chat] that follows the rerun of a successful upload
    shows the greeting, after the first five rows of the uploaded table when
    the box is ticked, and changes nothing. *)
Theorem csv_chat_after_upload (session : option CsvTabState) (table : DataFrame)
    (show_preview : bool) (prompt : option str) (cst' : CsvTabState)
    (page : list CsvElement) :
  csv_chat fuel session (Some (Ok table)) remote show_preview prompt
  = Some (Rerunning, cst', page) →
  df cst' = Some table
  ∧ ∀ fuel2 remote2 show2,
      csv_chat fuel2 (Some cst') (Some (Ok table)) remote2 show2 None
      = Some (Finished, cst',
              (if show2 then [DataPreview (take 5 table)] else [])
                ++ [CsvShown (ChatMarkdown ASSISTANT CSV_GREETING)]).
Proof.
  unfold csv_chat.
  destruct (upload_step CSV_GREETING fuel (Some (Ok table)) remote _ [])
    as [[[[outcome a] st1] ui1]|] eqn:Hstep; [|done].
  destruct outcome.
  - by destruct (chat_turn _ _ _) as [[[?|?] ?] ?].
  - intros [= <- <-].
    apply upload_step_rerun_state in Hstep as (Ha & -> & Hm & Hdone).
    destruct a as [d|]; [|done]. injection Ha as <-.
    split; [done|]. intros fuel2 remote2 show2. simpl default. cbn [csv_tab df].
    rewrite upload_step_skipped by (by left). rewrite Hm. by destruct show2.
  - by destruct (chat_turn _ _ _) as [[[?|?] ?] ?].
Qed.

End runs.

(** The file never leaves [PROCESSING]: a thousand polls do not end the
    run. *)
Lemma pdf_chat_waits_forever_witness :
  pdf_chat 1000 None (Some (Ok ())) remote_stuck None = None.
Proof.
  apply (pdf_chat_waits_forever 1000 remote_stuck None None processing_file);
    [reflexivity..|].
  intros j name. by exists processing_file.
Defined.

(** The first run of a session, with a question and no file. *)
Lemma pdf_chat_question_before_upload_witness :
  pdf_chat 0 None None remote_down (Some (lit "What is this about?"))
  = Some (Raised (UnboundLocalError (lit "response")),
          append_message (default initial_tab None)
            {| role := USER; content := lit "What is this about?" |},
          replay (messages (default initial_tab None))
            ++ [ ChatMarkdown USER (lit "What is this about?");
                 ChatMarkdown ASSISTANT
                   (lit "Error: 'NoneType' object has no attribute 'send_message'") ]).
Proof.
  apply (pdf_chat_question_before_upload 0 remote_down None (lit "What is this about?"));
    [reflexivity|discriminate].
Defined.

(** The run after the upload of the file that is [FAILED]. *)
Lemma pdf_chat_after_upload_witness :
  ([] : list Element) = []
  ∧ ∀ fuel2 remote2,
      pdf_chat fuel2 (Some failed_tab) (Some (Ok ())) remote2 None
      = Some (Finished, failed_tab, [ChatMarkdown ASSISTANT PDF_GREETING]).
Proof.
  apply (pdf_chat_after_upload 0 remote_failed None (Some (Ok ())) None failed_tab []).
  reflexivity.
Defined.

(** A question and its answer, and the run after them. *)
Lemma pdf_chat_redraws_witness :
  pdf_chat 0 (Some (append_message
                      (append_message (ready_tab answering_session)
                         {| role := USER; content := lit "Summarise it" |})
                      {| role := ASSISTANT; content := lit "You asked: Summarise it" |}))
    None remote_down None
  = Some (Finished,
          append_message
            (append_message (ready_tab answering_session)
               {| role := USER; content := lit "Summarise it" |})
            {| role := ASSISTANT; content := lit "You asked: Summarise it" |},
          [ ChatMarkdown ASSISTANT (lit "Hi! Ready to help with your PDF.");
            ChatMarkdown USER (lit "Summarise it");
            ChatMarkdown ASSISTANT (lit "You asked: Summarise it") ]).
Proof.
  apply (pdf_chat_redraws 0 remote_down (ready_tab answering_session) None
           (Some (lit "Summarise it"))); [by right|reflexivity].
Defined.

(** The table of seven rows: the preview has five. *)
Lemma csv_chat_after_upload_witness :
  df {| csv_tab := failed_tab_csv; df := Some seven_rows |} = Some seven_rows
  ∧ ∀ fuel2 remote2 show2,
      csv_chat fuel2 (Some {| csv_tab := failed_tab_csv; df := Some seven_rows |})
        (Some (Ok seven_rows)) remote2 show2 None
      = Some (Finished, {| csv_tab := failed_tab_csv; df := Some seven_rows |},
              (if show2 then [DataPreview (take 5 seven_rows)] else [])
                ++ [CsvShown (ChatMarkdown ASSISTANT CSV_GREETING)]).
Proof.
  apply (csv_chat_after_upload 0 remote_failed None seven_rows false None
           {| csv_tab := failed_tab_csv; df := Some seven_rows |} []).
  reflexivity.
Defined.

(** ** What the bullet and title patterns take *)

Section lines.
Import re.

(** A repetition without minimal count matches wherever its continuation
    matches after the first character of the attempt. *)
Lemma rep_total_pos {R} greedy cs (k : str → nat → option R) :
  (∀ s pos, 0 < pos → is_Some (k s pos)) →
  ∀ s pos, 0 < pos → is_Some (rep greedy cs k 0 s pos).
Proof.
  intros Hk. induction s as [|c s IH]; intros pos Hpos; simpl.
  - destruct greedy; destruct (Hk [] pos Hpos) as [r ->]; eauto.
  - destruct (Hk (c :: s) pos Hpos) as [r ->]. destruct greedy; [|eauto].
    destruct (cset_mem cs c); [|eauto].
    destruct (IH (S pos)) as [r' ->]; [lia|]. eauto.
Qed.

(** A greedy repetition whose continuation always matches takes the whole
    run of its class. *)
Lemma rep_greedy_max {R} cs (k : str → nat → option R) r : ∀ s min pos,
  min ≤ 1 →
  (∀ s' pos', 0 < pos' → is_Some (k s' pos')) →
  rep true cs k min s pos = Some r →
  ∃ j, min ≤ j ≤ length s
       ∧ Forall (λ c, cset_mem cs c = true) (take j s)
       ∧ match drop j s with [] => True | c :: _ => cset_mem cs c = false end
       ∧ k (drop j s) (pos + j) = Some r.
Proof.
  induction s as [|c s IH]; intros min pos Hmin Hk H.
  - exists 0. rewrite Nat.add_0_r. destruct min; simpl in H; [|done].
    simpl. split_and!; auto with lia.
  - simpl in H. destruct (cset_mem cs c) eqn:Hc.
    + assert (pred min = 0) as Hpred by lia. rewrite Hpred in H.
      destruct (rep_total_pos true cs k Hk s (S pos)) as [r' Hr']; [lia|].
      rewrite Hr' in H. injection H as <-.
      destruct (IH 0 (S pos)) as (j & Hj & Hall & Hnext & Hkj); [lia|done|done|].
      exists (S j). simpl. replace (pos + S j) with (S pos + j) by lia.
      split_and!; auto with lia.
    + destruct min; [|done]. exists 0. rewrite Nat.add_0_r. simpl.
      rewrite Hc. split_and!; auto with lia.
Qed.

Lemma run_group_tail_total s pos g adv :
  0 < pos → is_Some (run [GOpen; Rep true 0 Any; GClose] s pos g adv).
Proof.
  intros Hpos. rewrite run_GOpen, run_Rep. apply rep_total_pos; [|done].
  intros s' pos' Hpos'. rewrite run_GClose, run_nil.
  replace (pos' =? 0) with false by (symmetry; apply Nat.eqb_neq; lia).
  rewrite andb_false_r. eauto.
Qed.

(** What the tail that both patterns share, [\s] repeated and the group of
    [.*], takes after [pos] characters: all the white space there is, then
    the rest of the line, which is the group. *)
Lemma run_spaces_group_inv min s pos adv n gb ge :
  min ≤ 1 → 0 < pos →
  run [Rep true min Space; GOpen; Rep true 0 Any; GClose] s pos (None, None) adv
  = Some (n, (gb, ge)) →
  ∃ ws g rest,
    s = ws ++ g ++ rest
    ∧ min ≤ length ws ∧ Forall (λ c, isspace c = true) ws
    ∧ match g ++ rest with [] => True | c :: _ => isspace c = false end
    ∧ (NEWLINE ∉ g) ∧ at_line_end rest
    ∧ n = pos + length ws + length g
    ∧ gb = Some (pos + length ws) ∧ ge = Some n.
Proof.
  intros Hmin Hpos Hrun. rewrite run_Rep in Hrun.
  apply rep_greedy_max in Hrun as (j & Hj & Hws & Hnext & Hrun);
    [|done|intros; by apply run_group_tail_total].
  rewrite run_GOpen, run_Rep in Hrun.
  apply rep_greedy_max in Hrun as (j2 & Hj2 & Hg & Hend & Hrun); [|lia|].
  2:{ intros s' pos' Hpos'. rewrite run_GClose, run_nil.
      replace (pos' =? 0) with false by (symmetry; apply Nat.eqb_neq; lia).
      rewrite andb_false_r. eauto. }
  rewrite run_GClose, run_nil in Hrun.
  replace (pos + j + j2 =? 0) with false in Hrun by (symmetry; apply Nat.eqb_neq; lia).
  rewrite andb_false_r in Hrun. simpl in Hrun. injection Hrun as <- <- <-.
  exists (take j s), (take j2 (drop j s)), (drop j2 (drop j s)).
  rewrite !length_take, length_drop.
  replace (j `min` length s) with j by lia.
  replace (j2 `min` (length s - j)) with j2 by (rewrite length_drop in Hj2; lia).
  rewrite !take_drop. split_and!; try done.
  - lia.
  - intros Hin. eapply Forall_forall in Hg; [|exact Hin]. discriminate.
  - destruct (drop j2 (drop j s)) as [|c rest]; [done|]. simpl in *.
    destruct (c =? NEWLINE)%N eqn:Heq; [by apply N.eqb_eq|done].
Qed.

(** The converse: white space, then a line that does not begin with white
    space, are taken as such. *)
Lemma run_spaces_group min ws g rest pos adv :
  min ≤ length ws → 0 < pos →
  Forall (λ c, isspace c = true) ws →
  match g ++ rest with [] => True | c :: _ => isspace c = false end →
  NEWLINE ∉ g → at_line_end rest →
  run [Rep true min Space; GOpen; Rep true 0 Any; GClose] (ws ++ g ++ rest) pos (None, None) adv
  = Some (pos + length ws + length g,
          (Some (pos + length ws), Some (pos + length ws + length g))).
Proof.
  intros Hmin Hpos Hws Hnext Hg Hend. rewrite run_Rep.
  apply rep_greedy_all; [done|done|done|].
  rewrite run_GOpen, run_Rep. apply rep_greedy_all.
  - apply Forall_forall. intros c Hc. simpl.
    destruct (c =? NEWLINE)%N eqn:Heq; [|done]. apply N.eqb_eq in Heq as ->. done.
  - destruct rest as [|c rest]; [done|]. simpl in *. by rewrite Hend.
  - lia.
  - rewrite run_GClose, run_nil.
    replace (_ =? 0) with false by (symmetry; apply Nat.eqb_neq; lia).
    by rewrite andb_false_r.
Qed.

(** Both patterns are a literal text followed by that tail; the slices that
    [match_here] takes are the parts of the text. *)
Lemma slices (l ws g rest : str) :
  take (0 + length l + length ws + length g) (l ++ ws ++ g ++ rest) = l ++ ws ++ g
  ∧ take (0 + length l + length ws + length g - (0 + length l + length ws))
         (drop (0 + length l + length ws) (l ++ ws ++ g ++ rest)) = g.
Proof.
  split.
  - replace (0 + length l + length ws + length g) with (length (l ++ ws ++ g))
      by (rewrite !length_app; lia).
    by rewrite !app_assoc, take_app_length.
  - replace (0 + length l + length ws + length g - (0 + length l + length ws))
      with (length g) by lia.
    replace (0 + length l + length ws) with (length (l ++ ws))
      by (rewrite length_app; lia).
    by rewrite (app_assoc l ws), drop_app_length, take_app_length.
Qed.

Lemma match_here_line_inv l min s adv n m :
  l ≠ [] → min ≤ 1 →
  match_here ((Lit <$> l) ++ [Rep true min Space; GOpen; Rep true 0 Any; GClose]) s adv
  = Some (n, m) →
  ∃ ws g rest,
    s = l ++ ws ++ g ++ rest
    ∧ min ≤ length ws ∧ Forall (λ c, isspace c = true) ws
    ∧ match g ++ rest with [] => True | c :: _ => isspace c = false end
    ∧ (NEWLINE ∉ g) ∧ at_line_end rest
    ∧ n = length l + length ws + length g
    ∧ m = {| group0 := l ++ ws ++ g; group1 := Some g |}.
Proof.
  intros Hl Hmin. unfold match_here.
  destruct (run _ s 0 (None, None) adv) as [[k [gb ge]]|] eqn:Hrun; [|done].
  apply run_lits in Hrun as (s1 & -> & Hrun).
  apply run_spaces_group_inv in Hrun
    as (ws & g & rest & -> & Hlen & Hws & Hnext & Hg & Hend & -> & -> & ->);
    [|done|destruct l; [done|simpl; lia]].
  destruct (slices l ws g rest) as [H0 H1]. rewrite H0, H1.
  intros [= <- <-]. exists ws, g, rest. split_and!; done || lia.
Qed.

Lemma match_here_line l min ws g rest adv :
  l ≠ [] → min ≤ length ws →
  Forall (λ c, isspace c = true) ws →
  match g ++ rest with [] => True | c :: _ => isspace c = false end →
  NEWLINE ∉ g → at_line_end rest →
  match_here ((Lit <$> l) ++ [Rep true min Space; GOpen; Rep true 0 Any; GClose])
             (l ++ ws ++ g ++ rest) adv
  = Some (length l + length ws + length g, {| group0 := l ++ ws ++ g; group1 := Some g |}).
Proof.
  intros Hl Hmin Hws Hnext Hg Hend. unfold match_here.
  rewrite run_lits_app, (run_spaces_group min); try done;
    [|destruct l; [done|simpl; lia]].
  destruct (slices l ws g rest) as [H0 H1]. by rewrite H0, H1.
Qed.

Lemma BULLET_LINE_eq :
  BULLET_LINE = (Lit <$> lit "*") ++ [Rep true 1 Space; GOpen; Rep true 0 Any; GClose].
Proof. reflexivity. Qed.

End lines.

Section body.
Import re.

(** *** Stripping *)

Lemma lstrip_id s :
  match s with [] => True | c :: _ => isspace c = false end → lstrip s = s.
Proof. destruct s as [|c s]; [done|]. simpl. by intros ->. Qed.

Lemma lstrip_head s : match lstrip s with [] => True | c :: _ => isspace c = false end.
Proof.
  induction s as [|c s IH]; [done|]. simpl. destruct (isspace c) eqn:Hc; [done|].
  by rewrite Hc.
Qed.

Lemma lstrip_idemp s : lstrip (lstrip s) = lstrip s.
Proof. apply lstrip_id, lstrip_head. Qed.

Lemma lstrip_fixed s :
  lstrip s = s → match s with [] => True | c :: _ => isspace c = false end.
Proof. intros <-. apply lstrip_head. Qed.

Lemma lstrip_elem x s : x ∈ lstrip s → x ∈ s.
Proof.
  induction s as [|c s IH]; [done|]. simpl. destruct (isspace c); [|done].
  intros H. apply elem_of_cons. auto.
Qed.

Lemma rstrip_elem x s : x ∈ rstrip s → x ∈ s.
Proof.
  unfold rstrip. rewrite elem_of_reverse. intros H%lstrip_elem.
  by apply elem_of_reverse.
Qed.

Lemma strip_elem x s : x ∈ strip s → x ∈ s.
Proof. unfold strip. intros H%rstrip_elem. by apply lstrip_elem. Qed.

Lemma lstrip_snoc w c : isspace c = false → ∃ w', lstrip (w ++ [c]) = w' ++ [c].
Proof.
  intros Hc. induction w as [|x w IH]; simpl.
  - rewrite Hc. by exists [].
  - destruct (isspace x); [done|]. by exists (x :: w).
Qed.

Lemma rstrip_keeps_head c s : isspace c = false → ∃ u, rstrip (c :: s) = c :: u.
Proof.
  intros Hc. unfold rstrip. rewrite reverse_cons.
  destruct (lstrip_snoc (reverse s) c Hc) as [w' ->].
  rewrite reverse_app. by exists (reverse w').
Qed.

Lemma rstrip_idemp s : rstrip (rstrip s) = rstrip s.
Proof. unfold rstrip. by rewrite reverse_involutive, lstrip_idemp. Qed.

(** [strip] leaves no white space at either end. *)
Lemma strip_idemp s : strip (strip s) = strip s.
Proof.
  unfold strip. pose proof (lstrip_head s) as Hhead.
  destruct (lstrip s) as [|c t]; [done|].
  destruct (rstrip_keeps_head c t Hhead) as [u Hu].
  rewrite Hu at 1. rewrite (lstrip_id (c :: u)); [|done].
  by rewrite <- Hu, rstrip_idemp.
Qed.

Lemma strip_clean g : NEWLINE ∉ g → clean_title (strip g).
Proof.
  intros Hg. split; [|apply strip_idemp]. intros H. by apply Hg, strip_elem.
Qed.

(** *** Decimal numerals *)

Lemma lit_String a s : lit (String a s) = chr a :: lit s.
Proof. reflexivity. Qed.

Lemma string_of_uint_digits d :
  Forall (λ c, isspace c = false ∧ c ≠ NEWLINE) (lit (NilEmpty.string_of_uint d)).
Proof.
  induction d; simpl; [constructor|..];
    rewrite lit_String; (constructor; [split; [reflexivity|by vm_compute]|done]).
Qed.

Lemma str_of_nat_digits n : Forall (λ c, isspace c = false ∧ c ≠ NEWLINE) (str_of_nat n).
Proof. apply string_of_uint_digits. Qed.

Lemma str_of_nat_nonempty n : str_of_nat n ≠ [].
Proof.
  unfold str_of_nat. pose proof (DecimalNat.Unsigned.of_to n) as Hn.
  destruct (Nat.to_uint n) eqn:Hd; try (simpl; rewrite lit_String; discriminate).
  destruct n; [discriminate Hd|discriminate Hn].
Qed.

Lemma lit_inj s1 s2 : lit s1 = lit s2 → s1 = s2.
Proof.
  unfold lit. intros H.
  rewrite <- (string_of_list_ascii_of_string s1), <- (string_of_list_ascii_of_string s2).
  f_equal. revert H. generalize (list_ascii_of_string s1) (list_ascii_of_string s2).
  induction l as [|a l IH]; intros [|b l']; try done.
  intros [= Hab Hl]. f_equal; [|by apply IH].
  rewrite <- (ascii_N_embedding a), <- (ascii_N_embedding b). by f_equal.
Qed.

(** [str] of a number tells the number. *)
Lemma str_of_nat_inj n m : str_of_nat n = str_of_nat m → n = m.
Proof.
  intros H%lit_inj. apply DecimalNat.Unsigned.to_uint_inj.
  assert (Some (Nat.to_uint n) = Some (Nat.to_uint m)) as [= ->]; [|done].
  by rewrite <- !NilEmpty.usu, H.
Qed.

Lemma fallback_title_clean i : clean_title (lit "Slide " ++ str_of_nat (i + 2)).
Proof.
  pose proof (str_of_nat_digits (i + 2)) as Hd.
  pose proof (str_of_nat_nonempty (i + 2)) as Hne.
  split.
  - rewrite elem_of_app. intros [H|H].
    + vm_compute in H. repeat (apply elem_of_cons in H as [H|H]; [done|]).
      by apply elem_of_nil in H.
    + eapply Forall_forall in Hd as [_ Hd]; [|exact H]. done.
  - unfold strip. rewrite lstrip_id; [|reflexivity].
    unfold rstrip. rewrite reverse_app, lstrip_id; [by rewrite <- reverse_app, reverse_involutive|].
    destruct (str_of_nat (i + 2)) as [|c d] using rev_ind; [done|].
    rewrite reverse_app. simpl. apply Forall_app in Hd as [_ Hd].
    by apply Forall_singleton in Hd as [-> _].
Qed.

(** *** The scan for lines *)

(** Where no attempt can match, the search goes on. *)
Lemma search_from_skip p pre s :
  (∀ k, k < length pre → match_here p (drop k (pre ++ s)) false = None) →
  search_from p (pre ++ s) false
  = (λ r : str * Match * str, (pre ++ r.1.1, r.1.2, r.2)) <$> search_from p s false.
Proof.
  induction pre as [|c pre IH]; intros Hskip.
  - simpl app. destruct (search_from p s false) as [[[??]?]|]; done.
  - pose proof (Hskip 0 ltac:(simpl; lia)) as H0. rewrite drop_0 in H0.
    change ((c :: pre) ++ s) with (c :: (pre ++ s)) in *.
    rewrite search_from_unfold, H0, IH.
    + destruct (search_from p s false) as [[[??]?]|]; done.
    + intros k Hk. apply (Hskip (S k)). simpl. lia.
Qed.

Lemma match_here_not_start l p s :
  starts_with l s = false → match_here ((Lit <$> l) ++ p) s false = None.
Proof.
  intros Hs. destruct (match_here _ s false) as [[n m]|] eqn:Hm; [|done].
  apply match_here_lits in Hm as [s' ->]. unfold starts_with in Hs.
  by rewrite take_app_length, bool_decide_eq_false in Hs.
Qed.

(** The first line of the kind [l], white space and a text, that a text
    holds is the leftmost match. *)
Lemma search_from_line l min pre ws g rest :
  l ≠ [] → min ≤ length ws →
  (∀ k, k < length pre → starts_with l (drop k (pre ++ l ++ ws ++ g ++ rest)) = false) →
  Forall (λ c, isspace c = true) ws →
  match g ++ rest with [] => True | c :: _ => isspace c = false end →
  NEWLINE ∉ g → at_line_end rest →
  search_from ((Lit <$> l) ++ [Rep true min Space; GOpen; Rep true 0 Any; GClose])
              (pre ++ l ++ ws ++ g ++ rest) false
  = Some (pre, {| group0 := l ++ ws ++ g; group1 := Some g |}, rest).
Proof.
  intros Hl Hmin Hfirst Hws Hnext Hg Hend. rewrite search_from_skip.
  - rewrite search_from_unfold, (match_here_line l min); [|done..]. simpl.
    rewrite app_nil_r. do 2 f_equal.
    replace (length l + length ws + length g) with (length (l ++ ws ++ g))
      by (rewrite !length_app; lia).
    by rewrite !app_assoc, drop_app_length.
  - intros k Hk. by apply match_here_not_start, Hfirst.
Qed.

Lemma starts_with_head c l s : c ≠ default c (head s) → starts_with (c :: l) s = false.
Proof.
  intros Hc. unfold starts_with. apply bool_decide_eq_false. destruct s as [|x s]; [done|].
  simpl in *. intros [= -> _]. done.
Qed.

Lemma no_star_skip pre s k :
  chr "*" ∉ pre → k < length pre → starts_with (lit "*") (drop k (pre ++ s)) = false.
Proof.
  intros Hpre Hk. destruct (lookup_lt_is_Some_2 pre k Hk) as [c Hc].
  rewrite drop_app_le by lia. rewrite (drop_S _ _ _ Hc).
  change (lit "*") with [chr "*"]. apply starts_with_head. simpl.
  intros <-. apply Hpre. by eapply list_elem_of_lookup_2.
Qed.

Lemma search_from_no_star s :
  chr "*" ∉ s → search_from BULLET_LINE s false = None.
Proof.
  intros Hs. destruct (search_from BULLET_LINE s false) as [[[pre m] rest]|] eqn:H; [|done].
  rewrite BULLET_LINE_eq in H. apply search_from_lits_contains in H as (a & b & ->).
  exfalso. apply Hs. rewrite elem_of_app. right. change (lit "*") with [chr "*"].
  by left.
Qed.

Lemma concat_bullet_lines_end ls tail :
  at_line_end tail → at_line_end (concat (bullet_line <$> ls) ++ tail).
Proof. destruct ls; done. Qed.

Lemma scan_bullet_lines ls tail : ∀ n,
  Forall well_formed_bullet_line ls → chr "*" ∉ tail → at_line_end tail →
  scan_measure (concat (bullet_line <$> ls) ++ tail) false ≤ n →
  (λ pm : str * Match, group_text pm.2)
    <$> (scan n BULLET_LINE (concat (bullet_line <$> ls) ++ tail) false).1
  = bullet <$> ls.
Proof.
  induction ls as [|l ls IH]; intros n Hwf Htail Hend Hn.
  - simpl in *. destruct n; [done|]. rewrite scan_S, search_from_no_star; done.
  - apply Forall_cons in Hwf as [(Hind & Hne & Hws & Hb & Hnl & Hstrip) Hwf].
    destruct n; [unfold scan_measure in Hn; lia|]. rewrite scan_S.
    assert (concat (bullet_line <$> l :: ls) ++ tail
            = (NEWLINE :: indent l) ++ lit "*" ++ spaces l ++ bullet l
                ++ concat (bullet_line <$> ls) ++ tail) as Htext.
    { rewrite fmap_cons, concat_cons. unfold bullet_line at 1.
      by rewrite <- !app_assoc. }
    rewrite Htext in *. set (rest := concat (bullet_line <$> ls) ++ tail) in *.
    rewrite BULLET_LINE_eq, search_from_line; try done.
    + rewrite <- BULLET_LINE_eq.
      destruct (scan n BULLET_LINE rest _) as [ms tl] eqn:Hscan. simpl. f_equal.
      replace ms with (scan n BULLET_LINE rest false).1.
      * apply IH; try done.
        revert Hn. unfold scan_measure. rewrite !length_app. simpl. lia.
      * rewrite bool_decide_eq_false_2 in Hscan; [by rewrite Hscan|].
        simpl. by destruct (lit "*") eqn:Hl.
    + destruct (spaces l); [done|simpl; lia].
    + intros k Hk. apply no_star_skip; [|done]. rewrite elem_of_cons.
      intros [H|H]; [discriminate H|done].
    + apply lstrip_fixed in Hstrip. destruct (bullet l); done.
    + by apply concat_bullet_lines_end.
Qed.

(** X17.  A body of bullet lines gives their texts, in their order: each line
    of its own, an indentation without asterisk, an asterisk, white space
    and a text that does not begin with white space (it may hold
    asterisks, as the title line does); what follows the last of them
    holds no asterisk. *)
Theorem bullets_of_lines (ls : list BulletLine) (tail : str) :
  Forall well_formed_bullet_line ls →
  chr "*" ∉ tail → at_line_end tail →
  findall BULLET_LINE (concat (bullet_line <$> ls) ++ tail) = bullet <$> ls.
Proof.
  intros Hwf Htail Hend. unfold findall.
  change (has_group BULLET_LINE) with true. cbv iota.
  apply scan_bullet_lines; first [done | unfold scan_measure, scan_fuel; lia].
Qed.

Lemma bullets_of_lines_witness :
  Forall well_formed_bullet_line example_lines
  ∧ findall BULLET_LINE (concat (bullet_line <$> example_lines) ++ [NEWLINE])
    = [lit "**Title:** Results"; lit "Revenue *up* 4%"; lit "Costs flat"].
Proof.
  assert (Forall well_formed_bullet_line example_lines) as Hwf.
  { unfold example_lines. repeat apply Forall_cons_2; [..|apply Forall_nil_2];
      (split_and!; simpl;
       [apply (bool_decide_unpack _); vm_compute; exact I
       |discriminate
       |apply (bool_decide_unpack _); vm_compute; exact I
       |discriminate
       |split; [apply (bool_decide_unpack _); vm_compute; exact I|reflexivity]]). }
  split; [exact Hwf|].
  apply (bullets_of_lines example_lines [NEWLINE] Hwf); [|reflexivity].
  rewrite elem_of_cons, elem_of_nil. intros [H|[]]. discriminate H.
Defined.

(** *** What the records hold *)

Lemma findall_BULLET_LINE_clean content :
  Forall clean_bullet (findall BULLET_LINE content).
Proof.
  unfold findall. change (has_group BULLET_LINE) with true. cbv iota.
  apply Forall_fmap. eapply Forall_impl; [apply scan_matches|].
  intros [pre m] (adv & rest & Hm). simpl in *.
  rewrite BULLET_LINE_eq in Hm.
  apply match_here_line_inv in Hm
    as (ws & g & rest' & _ & _ & _ & Hnext & Hg & _ & _ & ->); [|done|lia].
  simpl. split; [done|]. apply lstrip_id. destruct g; [done|]. exact Hnext.
Qed.

Lemma search_TITLE_LINE_group content m :
  search TITLE_LINE content = Some m → ∃ g, group1 m = Some g ∧ (NEWLINE ∉ g).
Proof.
  unfold search.
  destruct (search_from TITLE_LINE content false) as [[[pre m'] rest]|] eqn:Hs; [|done].
  intros [= ->]. apply search_from_match in Hs as [adv Hm]. rewrite TITLE_LINE_eq in Hm.
  apply match_here_line_inv in Hm
    as (ws & g & rest' & _ & _ & _ & _ & Hg & _ & _ & ->); [|done|lia].
  by exists g.
Qed.

Lemma record_of_clean i content : clean_record (record_of i content).
Proof.
  split; [|apply findall_BULLET_LINE_clean]. simpl.
  destruct (search TITLE_LINE content) as [m|] eqn:Hs; [|apply fallback_title_clean].
  apply search_TITLE_LINE_group in Hs as (g & Hm & Hg).
  unfold group_text. rewrite Hm. by apply strip_clean.
Qed.

(** X18.  Whatever the text of the model, the records hold single lines: no
    title and no bullet holds a newline, no title begins or ends with
    white space, no bullet begins with white space. *)
Theorem records_clean (slide_structure : str) (rs : list SlideRecord) :
  parse_slides slide_structure = Ok rs → Forall clean_record rs.
Proof.
  rewrite parse_slides_eq. intros [= <-]. apply Forall_lookup. intros i r.
  rewrite list_lookup_imap. destruct (drop 1 _ !! i) as [content|]; [|done].
  intros [= <-]. apply record_of_clean.
Qed.

Lemma records_clean_witness :
  parse_slides example_text = Ok example_records ∧ Forall clean_record example_records.
Proof.
  assert (parse_slides example_text = Ok example_records) as H by (vm_compute; reflexivity).
  split; [exact H|]. exact (records_clean example_text example_records H).
Defined.

(** X19.  The title is taken at the first place where the body holds
    [**Title:**]: it is what follows on the line, without the white space
    around it.  The white space after the colon may hold newlines: after
    an empty title line the title is the text of the line that follows. *)
Theorem title_of_first_occurrence (pre ws g rest : str) (i : nat) :
  (∀ k, k < length pre →
        starts_with (lit "**Title:**") (drop k (pre ++ lit "**Title:**" ++ ws ++ g ++ rest))
        = false) →
  Forall (λ c, isspace c = true) ws →
  match g ++ rest with [] => True | c :: _ => isspace c = false end →
  NEWLINE ∉ g → at_line_end rest →
  slide_title (search TITLE_LINE (pre ++ lit "**Title:**" ++ ws ++ g ++ rest)) i
  = Ok (strip g).
Proof.
  intros Hfirst Hws Hnext Hg Hend. unfold search.
  rewrite TITLE_LINE_eq, search_from_line; try done. lia.
Qed.

(** A title line left empty before the first bullet. *)
Lemma title_of_first_occurrence_witness :
  slide_title
    (search TITLE_LINE
       (([NEWLINE] ++ lit "* ") ++ lit "**Title:**" ++ [NEWLINE] ++ lit "* Scope " ++ [NEWLINE]))
    0
  = Ok (lit "* Scope").
Proof.
  apply (title_of_first_occurrence ([NEWLINE] ++ lit "* ") [NEWLINE] (lit "* Scope ")
           [NEWLINE] 0).
  - intros k Hk. do 3 (destruct k as [|k]; [reflexivity|]). vm_compute in Hk. lia.
  - apply (bool_decide_unpack _). vm_compute. exact I.
  - reflexivity.
  - apply (bool_decide_unpack _). vm_compute. exact I.
  - reflexivity.
Defined.

(** X20.  Slides without title line get different titles: the fallback title
    tells the number of the slide. *)
Theorem fallback_titles_differ (i j : nat) :
  i ≠ j → slide_title None i ≠ slide_title None j.
Proof.
  intros Hij H. unfold slide_title in H.
  assert (lit "Slide " ++ str_of_nat (i + 2) = lit "Slide " ++ str_of_nat (j + 2)) as Heq
    by congruence.
  apply app_inv_head, str_of_nat_inj in Heq. lia.
Qed.

Lemma fallback_titles_differ_witness :
  slide_title None 0 ≠ slide_title None 9.
Proof. apply (fallback_titles_differ 0 9). lia. Defined.

End body.
